(** * Microkernel core: process table, memory pool, IPC and scheduler

    A shallow embedding of [kernel/microkernel.py], [kernel/ipc.py] and
    [kernel/scheduler.py].  Python objects that are shared and mutated
    ([Process] instances) live in an explicit object store and are named by
    their position in it; every method takes the state it reads and returns
    the state it leaves.  Python [int]s are [Z]; clock readings and timeouts
    (Python floats that are only ever subtracted and compared with zero or
    with each other) are [Z] ticks. *)

From stdpp Require Import base numbers option list gmap strings pretty sorting.

Open Scope string_scope.
Open Scope list_scope.
Open Scope Z_scope.

(** ** Python values carried as payloads *)

(** [Any]: what a message, a shared-memory cell or a pipe slot may hold.
    [PyNone] is Python's [None], which the IPC layer also uses as its failure
    value. *)
Inductive PyValue : Type :=
| PyNone
| PyBool (b : bool)
| PyInt (z : Z)
| PyStr (s : string)
| PyObj (address : nat).

(** Exceptions that escape the modelled methods. *)
Inductive exn : Type :=
| Exception (msg : string)
| ValueError (msg : string).

(** Result of a call that may park the calling thread.  [Blocks] is a wait
    without timeout that no other thread ends. *)
Inductive outcome (A : Type) : Type :=
| Returns (a : A)
| Raises (e : exn)
| Blocks.
Arguments Returns {A} a.
Arguments Raises {A} e.
Arguments Blocks {A}.

(** ** Insertion-ordered dictionaries

    [Microkernel.processes] is a [dict] whose [values()] order is observed
    by [list_processes]; it is kept as an association list in insertion
    order. *)
Module odict.
Section defs.
Context {V : Type}.

(** [d.get(k)] *)
Fixpoint get (k : string) (d : list (string * V)) : option V :=
  match d with
  | [] => None
  | (k', v) :: d' => if decide (k = k') then Some v else get k d'
  end.

(** [d[k] = v]: an existing key keeps its position, a new key goes last. *)
Fixpoint set (k : string) (v : V) (d : list (string * V)) : list (string * V) :=
  match d with
  | [] => [(k, v)]
  | (k', v') :: d' =>
      if decide (k = k') then (k, v) :: d' else (k', v') :: set k v d'
  end.

(** [del d[k]] *)
Fixpoint del (k : string) (d : list (string * V)) : list (string * V) :=
  match d with
  | [] => []
  | (k', v') :: d' => if decide (k = k') then del k d' else (k', v') :: del k d'
  end.

(** [list(d.values())] *)
Definition values (d : list (string * V)) : list V := d.*2.

(** [list(d.keys())] *)
Definition keys (d : list (string * V)) : list string := d.*1.

End defs.
End odict.

(** ** kernel/microkernel.py *)

Inductive ProcessState : Type := READY | RUNNING | BLOCKED | TERMINATED.

#[global] Instance ProcessState_eq_dec : EqDecision ProcessState.
Proof. solve_decision. Defined.

(** A reference to a [Process] object: its index in the object store. *)
Abbreviation loc := nat (only parsing).

Module Process.

(** The attributes [__init__] sets.  [thread] records whether a thread
    object has been prepared; the unused [context] dict is left out. *)
Record t : Type := mk {
  pid : string;
  name : string;
  priority : Z;
  state : ProcessState;
  memory_allocated : Z;
  created_at : Z;
  thread : bool
}.

(** [Process(pid, name, priority)] at clock reading [now]. *)
Definition init (pid name : string) (priority : Z) (now : Z) : t :=
  {| pid := pid; name := name; priority := priority; state := READY;
     memory_allocated := 0; created_at := now; thread := false |}.

Definition set_state (st : ProcessState) (p : t) : t :=
  {| pid := pid p; name := name p; priority := priority p; state := st;
     memory_allocated := memory_allocated p; created_at := created_at p;
     thread := thread p |}.

Definition set_memory_allocated (n : Z) (p : t) : t :=
  {| pid := pid p; name := name p; priority := priority p; state := state p;
     memory_allocated := n; created_at := created_at p; thread := thread p |}.

Definition set_thread (b : bool) (p : t) : t :=
  {| pid := pid p; name := name p; priority := priority p; state := state p;
     memory_allocated := memory_allocated p; created_at := created_at p;
     thread := b |}.

End Process.

Module Microkernel.

(** [self.stats] *)
Record Stats : Type := mkStats {
  processes_created : Z;
  processes_terminated : Z;
  services_registered : Z;
  messages_sent : Z
}.

(** The dict [send_message] builds. *)
Record Msg : Type := mkMsg {
  msg_from : string;
  msg_to : string;
  msg_message : PyValue;
  msg_timestamp : Z
}.

(** The attributes of [Microkernel] that process, memory and message
    management use ([services], [running] and the lock are left out). *)
Record t : Type := mk {
  processes : list (string * loc);
  memory_pool : Z;
  memory_used : Z;
  message_queue : gmap string (list Msg);
  stats : Stats
}.

(** The object store together with the kernel instance. *)
Record State : Type := mkState {
  heap : list Process.t;
  kernel : t
}.

(** [Microkernel()] *)
Definition init : t :=
  {| processes := []; memory_pool := 1024 * 1024; memory_used := 0;
     message_queue := ∅;
     stats := {| processes_created := 0; processes_terminated := 0;
                 services_registered := 0; messages_sent := 0 |} |}.

Definition init_state : State := {| heap := []; kernel := init |}.

Definition set_memory_used (n : Z) (k : t) : t :=
  {| processes := processes k; memory_pool := memory_pool k; memory_used := n;
     message_queue := message_queue k; stats := stats k |}.

Definition set_processes (d : list (string * loc)) (k : t) : t :=
  {| processes := d; memory_pool := memory_pool k;
     memory_used := memory_used k; message_queue := message_queue k;
     stats := stats k |}.

Definition set_message_queue (q : gmap string (list Msg)) (k : t) : t :=
  {| processes := processes k; memory_pool := memory_pool k;
     memory_used := memory_used k; message_queue := q; stats := stats k |}.

Definition set_stats (st : Stats) (k : t) : t :=
  {| processes := processes k; memory_pool := memory_pool k;
     memory_used := memory_used k; message_queue := message_queue k;
     stats := st |}.

Definition incr_processes_created (st : Stats) : Stats :=
  {| processes_created := processes_created st + 1;
     processes_terminated := processes_terminated st;
     services_registered := services_registered st;
     messages_sent := messages_sent st |}.

Definition incr_processes_terminated (st : Stats) : Stats :=
  {| processes_created := processes_created st;
     processes_terminated := processes_terminated st + 1;
     services_registered := services_registered st;
     messages_sent := messages_sent st |}.

Definition incr_messages_sent (st : Stats) : Stats :=
  {| processes_created := processes_created st;
     processes_terminated := processes_terminated st;
     services_registered := services_registered st;
     messages_sent := messages_sent st + 1 |}.

(** Constructing a [Process] object: it is placed at the end of the store. *)
Definition new_process (p : Process.t) (s : State) : loc * State :=
  (length (heap s), {| heap := heap s ++ [p]; kernel := kernel s |}).

(** [allocate_memory(process, size)].  A reference always names a stored
    object; [alter] leaves the store alone at an index beyond it. *)
Definition allocate_memory (s : State) (process : loc) (size : Z)
  : bool * State :=
  let k := kernel s in
  if memory_used k + size >? memory_pool k then (false, s)
  else
    (true,
     {| heap := alter (Process.set_memory_allocated size) process (heap s);
        kernel := set_memory_used (memory_used k + size) k |}).

(** [deallocate_memory(process)] *)
Definition deallocate_memory (s : State) (process : loc) : bool * State :=
  match heap s !! process with
  | Some p =>
      if Process.memory_allocated p >? 0 then
        (true,
         {| heap := alter (Process.set_memory_allocated 0) process (heap s);
            kernel := set_memory_used
                        (memory_used (kernel s) - Process.memory_allocated p)
                        (kernel s) |})
      else (false, s)
  | None => (false, s)
  end.

(** The text of the exception [create_process] raises (without the leading
    pictogram of the source string). *)
Definition no_memory_msg (name : string) : string :=
  "No hay memoria suficiente para el proceso " +:+ name.

(** [create_process(name, target_func, args, priority)].  [pid] is the
    token [str(uuid.uuid4())[:8]] produced for this call, [has_target] says
    whether [target_func] was given and [now] is the clock reading taken by
    the [Process] constructor. *)
Definition create_process (s : State) (pid name : string) (has_target : bool)
    (priority : Z) (now : Z) : outcome string * State :=
  let '(process, s1) := new_process (Process.init pid name priority now) s in
  let memory_needed := 1024 in
  let '(ok, s2) := allocate_memory s1 process memory_needed in
  if negb ok then (Raises (Exception (no_memory_msg name)), s2)
  else
    let k := kernel s2 in
    let k1 := set_processes (odict.set pid process (processes k)) k in
    let k2 := set_message_queue (<[pid := []]> (message_queue k1)) k1 in
    let k3 := set_stats (incr_processes_created (stats k2)) k2 in
    let h :=
      if has_target then
        alter (fun p => Process.set_state READY (Process.set_thread true p))
              process (heap s2)
      else heap s2 in
    (Returns pid, {| heap := h; kernel := k3 |}).

(** [terminate_process(pid)] *)
Definition terminate_process (s : State) (pid : string) : bool * State :=
  match odict.get pid (processes (kernel s)) with
  | None => (false, s)
  | Some process =>
      let s1 := {| heap := alter (Process.set_state TERMINATED) process (heap s);
                   kernel := kernel s |} in
      let '(_, s2) := deallocate_memory s1 process in
      let k := kernel s2 in
      let k1 := set_message_queue (delete pid (message_queue k)) k in
      let k2 := set_processes (odict.del pid (processes k1)) k1 in
      let k3 := set_stats (incr_processes_terminated (stats k2)) k2 in
      (true, {| heap := heap s2; kernel := k3 |})
  end.

(** [list_processes()]: the process objects in table order. *)
Definition list_processes (s : State) : list loc :=
  odict.values (processes (kernel s)).

(** [get_process(pid)] *)
Definition get_process (k : t) (pid : string) : option loc :=
  odict.get pid (processes k).

(** [send_message(from_pid, to_pid, message)] at clock reading [now]. *)
Definition send_message (k : t) (from_pid to_pid : string) (message : PyValue)
    (now : Z) : bool * t :=
  match message_queue k !! to_pid with
  | None => (false, k)
  | Some q =>
      let msg := {| msg_from := from_pid; msg_to := to_pid;
                    msg_message := message; msg_timestamp := now |} in
      let k1 := set_message_queue (<[to_pid := q ++ [msg]]> (message_queue k)) k in
      (true, set_stats (incr_messages_sent (stats k1)) k1)
  end.

(** [receive_message(pid)] *)
Definition receive_message (k : t) (pid : string) : option Msg * t :=
  match message_queue k !! pid with
  | None | Some [] => (None, k)
  | Some (m :: q) => (Some m, set_message_queue (<[pid := q]> (message_queue k)) k)
  end.

(** [n] successive [receive_message(pid)] calls and what they return. *)
Fixpoint receive_all (n : nat) (k : t) (pid : string)
  : list (option Msg) * t :=
  match n with
  | O => ([], k)
  | S n' =>
      let '(r, k1) := receive_message k pid in
      let '(rs, k2) := receive_all n' k1 pid in
      (r :: rs, k2)
  end.

(** Calls a client can make on the kernel and on process objects. *)
Inductive Op : Type :=
| OpNew (pid name : string) (priority : Z) (now : Z)
| OpAllocate (process : loc) (size : Z)
| OpDeallocate (process : loc)
| OpCreate (pid name : string) (has_target : bool) (priority : Z) (now : Z)
| OpTerminate (pid : string).

Definition step (s : State) (o : Op) : State :=
  match o with
  | OpNew pid name priority now =>
      (new_process (Process.init pid name priority now) s).2
  | OpAllocate process size => (allocate_memory s process size).2
  | OpDeallocate process => (deallocate_memory s process).2
  | OpCreate pid name has_target priority now =>
      (create_process s pid name has_target priority now).2
  | OpTerminate pid => (terminate_process s pid).2
  end.

Definition run (s : State) (ops : list Op) : State := foldl step s ops.

(** Sizes handed to [allocate_memory] are byte counts. *)
Definition op_size_ok (o : Op) : Prop :=
  match o with
  | OpAllocate _ size => 0 <= size
  | _ => True
  end.

(** The bytes the process objects record as theirs. *)
Definition recorded_total (h : list Process.t) : Z :=
  foldr (fun p acc => Process.memory_allocated p + acc) 0 h.

(** [has_messages(pid)] *)
Definition has_messages (k : t) (pid : string) : bool :=
  match message_queue k !! pid with
  | Some q => (0 <? length q)%nat
  | None => false
  end.

(** Client calls together with the two message calls. *)
Inductive Call : Type :=
| CallOp (o : Op)
| CallSend (from_pid to_pid : string) (message : PyValue) (now : Z)
| CallReceive (pid : string).

Definition with_kernel (s : State) (k : t) : State :=
  {| heap := heap s; kernel := k |}.

Definition call_step (s : State) (c : Call) : State :=
  match c with
  | CallOp o => step s o
  | CallSend from_pid to_pid message now =>
      with_kernel s (send_message (kernel s) from_pid to_pid message now).2
  | CallReceive pid => with_kernel s (receive_message (kernel s) pid).2
  end.

Definition call_run (s : State) (cs : list Call) : State := foldl call_step s cs.

(** The whole kernel: the state above, the attributes [services] and
    [running], and the thread objects on which [start()] has been called. *)
Record System : Type := mkSystem {
  sys_state : State;
  services : list (string * PyValue);
  running : bool;
  started : list loc
}.

(** [Microkernel()] as a whole. *)
Definition init_system : System :=
  {| sys_state := init_state; services := []; running := false;
     started := [] |}.

Definition set_sys_state (s : State) (y : System) : System :=
  {| sys_state := s; services := services y; running := running y;
     started := started y |}.

Definition incr_services_registered (st : Stats) : Stats :=
  {| processes_created := processes_created st;
     processes_terminated := processes_terminated st;
     services_registered := services_registered st + 1;
     messages_sent := messages_sent st |}.

(** [start()] *)
Definition start (y : System) : System :=
  {| sys_state := sys_state y; services := services y; running := true;
     started := started y |}.

(** [stop()]: every id in a copy of the table's keys is terminated. *)
Definition stop (y : System) : System :=
  let pids := odict.keys (processes (kernel (sys_state y))) in
  let s := foldl (fun s pid => (terminate_process s pid).2) (sys_state y) pids in
  {| sys_state := s; services := services y; running := false;
     started := started y |}.

(** How [start_process] ends: [Thread.start()] raises [RuntimeError] on a
    thread that was started before. *)
Inductive start_result : Type :=
| StartReturns (b : bool)
| StartRuntimeError.

(** [start_process(pid)] *)
Definition start_process (y : System) (pid : string) : start_result * System :=
  match odict.get pid (processes (kernel (sys_state y))) with
  | None => (StartReturns false, y)
  | Some process =>
      match heap (sys_state y) !! process with
      | None => (StartReturns false, y)
      | Some p =>
          if bool_decide (Process.state p = READY) && Process.thread p then
            if decide (process ∈ started y) then (StartRuntimeError, y)
            else
              (StartReturns true,
               {| sys_state := sys_state y; services := services y;
                  running := running y; started := process :: started y |})
          else (StartReturns false, y)
      end
  end.

(** [_run_process(pid, target_func, args)] before the body runs: the table
    lookup (a [KeyError] is caught) and the move to [RUNNING]. *)
Definition _run_process_enter (s : State) (pid : string) : State :=
  match odict.get pid (processes (kernel s)) with
  | None => s
  | Some process =>
      {| heap := alter (Process.set_state RUNNING) process (heap s);
         kernel := kernel s |}
  end.

(** [_run_process]'s [finally] clause, after the body returned or raised. *)
Definition _run_process_finally (s : State) (pid : string) : State :=
  match odict.get pid (processes (kernel s)) with
  | None => s
  | Some process =>
      {| heap := alter (Process.set_state TERMINATED) process (heap s);
         kernel := kernel s |}
  end.

(** [register_service(name, service_instance)] *)
Definition register_service (y : System) (name : string) (instance : PyValue)
  : bool * System :=
  match odict.get name (services y) with
  | Some _ => (false, y)
  | None =>
      let k := kernel (sys_state y) in
      (true,
       {| sys_state :=
            with_kernel (sys_state y)
              (set_stats (incr_services_registered (stats k)) k);
          services := odict.set name instance (services y);
          running := running y; started := started y |})
  end.

(** [get_service(name)]; [dict.get] gives [None] for a missing name. *)
Definition get_service (y : System) (name : string) : PyValue :=
  default PyNone (odict.get name (services y)).

(** [unregister_service(name)] *)
Definition unregister_service (y : System) (name : string) : bool * System :=
  match odict.get name (services y) with
  | None => (false, y)
  | Some _ =>
      (true,
       {| sys_state := sys_state y; services := odict.del name (services y);
          running := running y; started := started y |})
  end.

(** [list_services()] *)
Definition list_services (y : System) : list string :=
  odict.keys (services y).

End Microkernel.

(** ** kernel/ipc.py *)

(** [l.remove(x)] guarded by [x in l]: drops the first occurrence. *)
Fixpoint list_remove (x : string) (l : list string) : list string :=
  match l with
  | [] => []
  | y :: l' => if decide (x = y) then l' else y :: list_remove x l'
  end.

(** [l.append(x)] guarded by [x not in l]. *)
Definition list_add (x : string) (l : list string) : list string :=
  if decide (x ∈ l) then l else l ++ [x].

Module Semaphore.

Record t : Type := mk {
  name : string;
  value : Z;
  initial_value : Z;
  waiting_processes : list string
}.

(** [Semaphore(name, initial_value)] *)
Definition init (name : string) (initial_value : Z) : t :=
  {| name := name; value := initial_value; initial_value := initial_value;
     waiting_processes := [] |}.

Definition set_value (v : Z) (s : t) : t :=
  {| name := name s; value := v; initial_value := initial_value s;
     waiting_processes := waiting_processes s |}.

Definition set_waiting (w : list string) (s : t) : t :=
  {| name := name s; value := value s; initial_value := initial_value s;
     waiting_processes := w |}.

(** How one turn of [acquire]'s loop ends. *)
Inductive turn : Type :=
| Acquired   (* return True *)
| TimedOut   (* return False *)
| Parked.    (* condition.wait: the lock is given up until a wake-up *)

(** One turn of [acquire(process_id, timeout)]: the code run while the
    condition's lock is held, from the test [while self.value <= 0] to the
    next [wait] or to a [return].  [elapsed] is [time.time() - start_time]
    as read in this turn.  A timeout of [None] or zero is falsy. *)
Definition acquire_turn (s : t) (process_id : string) (timeout : option Z)
    (elapsed : Z) : turn * t :=
  if value s <=? 0 then
    let s1 := set_waiting (list_add process_id (waiting_processes s)) s in
    match timeout with
    | Some tmo =>
        if tmo =? 0 then (Parked, s1)
        else
          let remaining := tmo - elapsed in
          if remaining <=? 0 then
            (TimedOut,
             set_waiting (list_remove process_id (waiting_processes s1)) s1)
          else (Parked, s1)
    | None => (Parked, s1)
    end
  else
    let s1 := set_value (value s - 1) s in
    (Acquired, set_waiting (list_remove process_id (waiting_processes s1)) s1).

(** [acquire] run by a thread that nobody else wakes: [clock] lists the
    elapsed time read at entry and after each wait; a wait that outlasts the
    readings never ends. *)
Fixpoint acquire (clock : list Z) (s : t) (process_id : string)
    (timeout : option Z) : outcome bool * t :=
  match clock with
  | [] => (Blocks, s)
  | elapsed :: clock' =>
      match acquire_turn s process_id timeout elapsed with
      | (Acquired, s') => (Returns true, s')
      | (TimedOut, s') => (Returns false, s')
      | (Parked, s') => acquire clock' s' process_id timeout
      end
  end.

(** [release(process_id)] *)
Definition release (s : t) (process_id : string) : t :=
  set_value (value s + 1) s.

(** What threads do to one semaphore, one critical section at a time: a
    turn of some caller's [acquire] (its first, or one after a wake-up), or
    a [release]. *)
Inductive event : Type :=
| EvAcquire (process_id : string) (timeout : option Z) (elapsed : Z)
| EvRelease (process_id : string).

Definition apply_event (s : t) (e : event) : t :=
  match e with
  | EvAcquire process_id timeout elapsed =>
      (acquire_turn s process_id timeout elapsed).2
  | EvRelease process_id => release s process_id
  end.

Definition run (s : t) (evs : list event) : t := foldl apply_event s evs.

End Semaphore.

Module SharedMemory.

Record t : Type := mk {
  name : string;
  size : Z;
  data : gmap string PyValue;
  access_count : Z;
  authorized_processes : list string
}.

(** [SharedMemory(name, size)] *)
Definition init (name : string) (size : Z) : t :=
  {| name := name; size := size; data := ∅; access_count := 0;
     authorized_processes := [] |}.

(** [authorize_process(process_id)] *)
Definition authorize_process (m : t) (process_id : string) : t :=
  {| name := name m; size := size m; data := data m;
     access_count := access_count m;
     authorized_processes := list_add process_id (authorized_processes m) |}.

(** [read(process_id, key)]; [dict.get] gives [None] for a missing key. *)
Definition read (m : t) (process_id key : string) : PyValue * t :=
  if decide (process_id ∈ authorized_processes m) then
    (default PyNone (data m !! key),
     {| name := name m; size := size m; data := data m;
        access_count := access_count m + 1;
        authorized_processes := authorized_processes m |})
  else (PyNone, m).

(** [write(process_id, key, value)] *)
Definition write (m : t) (process_id key : string) (value : PyValue)
  : bool * t :=
  if decide (process_id ∈ authorized_processes m) then
    (true,
     {| name := name m; size := size m; data := <[key := value]> (data m);
        access_count := access_count m + 1;
        authorized_processes := authorized_processes m |})
  else (false, m).

End SharedMemory.

Module Pipe.

(** [queue] is the content of the [queue.Queue], oldest first, and
    [maxsize] its bound (none when not positive). *)
Record t : Type := mk {
  name : string;
  queue : list PyValue;
  maxsize : Z;
  readers : list string;
  writers : list string;
  created_at : Z
}.

(** [Pipe(name, max_size)] at clock reading [now]. *)
Definition init (name : string) (max_size : Z) (now : Z) : t :=
  {| name := name; queue := []; maxsize := max_size; readers := [];
     writers := []; created_at := now |}.

Definition set_queue (q : list PyValue) (p : t) : t :=
  {| name := name p; queue := q; maxsize := maxsize p; readers := readers p;
     writers := writers p; created_at := created_at p |}.

(** [add_reader(process_id)] *)
Definition add_reader (p : t) (process_id : string) : t :=
  {| name := name p; queue := queue p; maxsize := maxsize p;
     readers := list_add process_id (readers p); writers := writers p;
     created_at := created_at p |}.

(** [add_writer(process_id)] *)
Definition add_writer (p : t) (process_id : string) : t :=
  {| name := name p; queue := queue p; maxsize := maxsize p;
     readers := readers p; writers := list_add process_id (writers p);
     created_at := created_at p |}.

(** How [Queue.get] of the standard library ends when no other thread
    touches the queue while the caller waits. *)
Inductive get_result : Type :=
| GetItem (item : PyValue) (rest : list PyValue)
| GetEmpty        (* raise queue.Empty *)
| GetValueError   (* negative timeout *)
| GetBlocks.

(** How [Queue.put] ends under the same assumption. *)
Inductive put_result : Type :=
| PutDone (q : list PyValue)
| PutFull         (* raise queue.Full *)
| PutValueError   (* negative timeout *)
| PutBlocks.

(** [Queue.get(timeout=timeout)] *)
Definition queue_get (q : list PyValue) (timeout : option Z) : get_result :=
  match timeout with
  | None => match q with [] => GetBlocks | x :: q' => GetItem x q' end
  | Some tmo =>
      if tmo <? 0 then GetValueError
      else match q with [] => GetEmpty | x :: q' => GetItem x q' end
  end.

(** [Queue.put(item, timeout=timeout)] *)
Definition queue_put (q : list PyValue) (maxsize : Z) (item : PyValue)
    (timeout : option Z) : put_result :=
  let full := (0 <? maxsize) && (maxsize <=? Z.of_nat (length q)) in
  match timeout with
  | None => if full then PutBlocks else PutDone (q ++ [item])
  | Some tmo =>
      if tmo <? 0 then PutValueError
      else if full then PutFull else PutDone (q ++ [item])
  end.

Definition negative_timeout_msg : string :=
  "'timeout' must be a non-negative number".

(** [write(process_id, data, timeout)] *)
Definition write (p : t) (process_id : string) (data : PyValue)
    (timeout : option Z) : outcome bool * t :=
  if decide (process_id ∈ writers p) then
    match queue_put (queue p) (maxsize p) data timeout with
    | PutDone q' => (Returns true, set_queue q' p)
    | PutFull => (Returns false, p)
    | PutValueError => (Raises (ValueError negative_timeout_msg), p)
    | PutBlocks => (Blocks, p)
    end
  else (Returns false, p).

(** [read(process_id, timeout)] *)
Definition read (p : t) (process_id : string) (timeout : option Z)
  : outcome PyValue * t :=
  if decide (process_id ∈ readers p) then
    match queue_get (queue p) timeout with
    | GetItem data q' => (Returns data, set_queue q' p)
    | GetEmpty => (Returns PyNone, p)
    | GetValueError => (Raises (ValueError negative_timeout_msg), p)
    | GetBlocks => (Blocks, p)
    end
  else (Returns PyNone, p).

End Pipe.

Module IPCManager.

(** [Message(sender, receiver, data, msg_type)] *)
Record Message : Type := mkMessage {
  sender : string;
  receiver : string;
  data : PyValue;
  msg_type : string;
  timestamp : Z;
  id : string
}.

(** The constructor, at clock reading [now] in microseconds, so that
    [int(self.timestamp * 1000000)] is [now]. *)
Definition Message_init (sender receiver : string) (data : PyValue)
    (msg_type : string) (now : Z) : Message :=
  {| sender := sender; receiver := receiver; data := data;
     msg_type := msg_type; timestamp := now;
     id := sender +:+ "-" +:+ receiver +:+ "-" +:+ pretty now |}.

Record t : Type := mk {
  messages : gmap string (list Message);
  semaphores : gmap string Semaphore.t;
  shared_memories : gmap string SharedMemory.t;
  pipes : gmap string Pipe.t
}.

(** [IPCManager()] *)
Definition init : t :=
  {| messages := ∅; semaphores := ∅; shared_memories := ∅; pipes := ∅ |}.

Definition set_messages (ms : gmap string (list Message)) (m : t) : t :=
  {| messages := ms; semaphores := semaphores m;
     shared_memories := shared_memories m; pipes := pipes m |}.

Definition set_pipes (ps : gmap string Pipe.t) (m : t) : t :=
  {| messages := messages m; semaphores := semaphores m;
     shared_memories := shared_memories m; pipes := ps |}.

(** [send_message(sender, receiver, data, msg_type)]; [kernel] is what
    [get_kernel()] returns.  A [Process] object is truthy, so
    [not kernel.get_process(x)] holds exactly when the lookup gives
    [None]; a receiver without a list yet gets an empty one before the
    append. *)
Definition send_message (m : t) (kernel : Microkernel.t)
    (sender receiver : string) (data : PyValue) (msg_type : string) (now : Z)
  : bool * t :=
  match Microkernel.get_process kernel sender,
        Microkernel.get_process kernel receiver with
  | Some _, Some _ =>
      let message := Message_init sender receiver data msg_type now in
      let q := default [] (messages m !! receiver) in
      (true, set_messages (<[receiver := q ++ [message]]> (messages m)) m)
  | _, _ => (false, m)
  end.

(** [receive_message(process_id, timeout)]: the timeout is not used. *)
Definition receive_message (m : t) (process_id : string)
  : option Message * t :=
  match messages m !! process_id with
  | None | Some [] => (None, m)
  | Some (x :: q) => (Some x, set_messages (<[process_id := q]> (messages m)) m)
  end.

(** [create_pipe(name, max_size)] at clock reading [now]. *)
Definition create_pipe (m : t) (name : string) (max_size : Z) (now : Z)
  : bool * t :=
  match pipes m !! name with
  | Some _ => (false, m)
  | None => (true, set_pipes (<[name := Pipe.init name max_size now]> (pipes m)) m)
  end.

(** [add_pipe_reader(pipe_name, process_id)] *)
Definition add_pipe_reader (m : t) (pipe_name process_id : string) : bool * t :=
  match pipes m !! pipe_name with
  | None => (false, m)
  | Some p =>
      (true, set_pipes (<[pipe_name := Pipe.add_reader p process_id]> (pipes m)) m)
  end.

(** [add_pipe_writer(pipe_name, process_id)] *)
Definition add_pipe_writer (m : t) (pipe_name process_id : string) : bool * t :=
  match pipes m !! pipe_name with
  | None => (false, m)
  | Some p =>
      (true, set_pipes (<[pipe_name := Pipe.add_writer p process_id]> (pipes m)) m)
  end.

(** [write_pipe(pipe_name, process_id, data, timeout)] *)
Definition write_pipe (m : t) (pipe_name process_id : string) (data : PyValue)
    (timeout : option Z) : outcome bool * t :=
  match pipes m !! pipe_name with
  | None => (Returns false, m)
  | Some p =>
      let '(r, p') := Pipe.write p process_id data timeout in
      (r, set_pipes (<[pipe_name := p']> (pipes m)) m)
  end.

(** [read_pipe(pipe_name, process_id, timeout)] *)
Definition read_pipe (m : t) (pipe_name process_id : string)
    (timeout : option Z) : outcome PyValue * t :=
  match pipes m !! pipe_name with
  | None => (Returns PyNone, m)
  | Some p =>
      let '(r, p') := Pipe.read p process_id timeout in
      (r, set_pipes (<[pipe_name := p']> (pipes m)) m)
  end.

Definition set_semaphores (ss : gmap string Semaphore.t) (m : t) : t :=
  {| messages := messages m; semaphores := ss;
     shared_memories := shared_memories m; pipes := pipes m |}.

Definition set_shared_memories (ms : gmap string SharedMemory.t) (m : t) : t :=
  {| messages := messages m; semaphores := semaphores m;
     shared_memories := ms; pipes := pipes m |}.

(** [has_messages(process_id)] *)
Definition has_messages (m : t) (process_id : string) : bool :=
  match messages m !! process_id with
  | Some q => (0 <? length q)%nat
  | None => false
  end.

(** [get_message_count(process_id)] *)
Definition get_message_count (m : t) (process_id : string) : nat :=
  length (default [] (messages m !! process_id)).

(** [create_semaphore(name, initial_value)] *)
Definition create_semaphore (m : t) (name : string) (initial_value : Z)
  : bool * t :=
  match semaphores m !! name with
  | Some _ => (false, m)
  | None =>
      (true,
       set_semaphores (<[name := Semaphore.init name initial_value]> (semaphores m)) m)
  end.

(** [acquire_semaphore(semaphore_name, process_id, timeout)], the caller
    reading the clock as in [Semaphore.acquire]. *)
Definition acquire_semaphore (clock : list Z) (m : t)
    (semaphore_name process_id : string) (timeout : option Z)
  : outcome bool * t :=
  match semaphores m !! semaphore_name with
  | None => (Returns false, m)
  | Some s =>
      let '(r, s') := Semaphore.acquire clock s process_id timeout in
      (r, set_semaphores (<[semaphore_name := s']> (semaphores m)) m)
  end.

(** [release_semaphore(semaphore_name, process_id)] *)
Definition release_semaphore (m : t) (semaphore_name process_id : string)
  : bool * t :=
  match semaphores m !! semaphore_name with
  | None => (false, m)
  | Some s =>
      (true,
       set_semaphores
         (<[semaphore_name := Semaphore.release s process_id]> (semaphores m)) m)
  end.

(** [create_shared_memory(name, size)] *)
Definition create_shared_memory (m : t) (name : string) (size : Z) : bool * t :=
  match shared_memories m !! name with
  | Some _ => (false, m)
  | None =>
      (true,
       set_shared_memories
         (<[name := SharedMemory.init name size]> (shared_memories m)) m)
  end.

(** [authorize_shared_memory_access(memory_name, process_id)] *)
Definition authorize_shared_memory_access (m : t)
    (memory_name process_id : string) : bool * t :=
  match shared_memories m !! memory_name with
  | None => (false, m)
  | Some sm =>
      (true,
       set_shared_memories
         (<[memory_name := SharedMemory.authorize_process sm process_id]>
            (shared_memories m)) m)
  end.

(** [read_shared_memory(memory_name, process_id, key)] *)
Definition read_shared_memory (m : t) (memory_name process_id key : string)
  : PyValue * t :=
  match shared_memories m !! memory_name with
  | None => (PyNone, m)
  | Some sm =>
      let '(v, sm') := SharedMemory.read sm process_id key in
      (v, set_shared_memories (<[memory_name := sm']> (shared_memories m)) m)
  end.

(** [write_shared_memory(memory_name, process_id, key, value)] *)
Definition write_shared_memory (m : t) (memory_name process_id key : string)
    (value : PyValue) : bool * t :=
  match shared_memories m !! memory_name with
  | None => (false, m)
  | Some sm =>
      let '(ok, sm') := SharedMemory.write sm process_id key value in
      (ok, set_shared_memories (<[memory_name := sm']> (shared_memories m)) m)
  end.

End IPCManager.

(** ** kernel/scheduler.py *)

(** [l.index(x)]: the first position of [x]. *)
Fixpoint list_index (x : loc) (l : list loc) : option nat :=
  match l with
  | [] => None
  | y :: l' => if decide (x = y) then Some 0%nat else S <$> list_index x l'
  end.

(** [l.sort(key=...)] is stable: an element goes in front of the first one
    it does not exceed, so equal keys keep the order of the input. *)
Fixpoint sort_insert {A : Type} (le : A → A → bool) (x : A) (l : list A)
  : list A :=
  match l with
  | [] => [x]
  | y :: l' => if le x y then x :: y :: l' else y :: sort_insert le x l'
  end.

Definition list_sort {A : Type} (le : A → A → bool) (l : list A) : list A :=
  foldr (sort_insert le) [] l.

Module Scheduler.

Record t : Type := mk {
  time_slice : Z;
  running : bool;
  current_process : option loc
}.

(** Attribute reads through a reference. *)
Definition priority_of (h : list Process.t) (p : loc) : Z :=
  from_option Process.priority 0 (h !! p).

Definition created_of (h : list Process.t) (p : loc) : Z :=
  from_option Process.created_at 0 (h !! p).

Definition state_of (h : list Process.t) (p : loc) : option ProcessState :=
  Process.state <$> h !! p.

(** The sort key [(-p.priority, p.created_at)]. *)
Definition sort_key (h : list Process.t) (p : loc) : Z * Z :=
  (- priority_of h p, created_of h p).

(** Tuple comparison [a <= b]. *)
Definition tuple_le (a b : Z * Z) : bool :=
  (a.1 <? b.1) || ((a.1 =? b.1) && (a.2 <=? b.2)).

Definition key_le (h : list Process.t) (p q : loc) : bool :=
  tuple_le (sort_key h p) (sort_key h q).

(** [_get_ready_processes()] *)
Definition _get_ready_processes (s : Microkernel.State) : list loc :=
  filter (fun p => state_of (Microkernel.heap s) p = Some READY)
         (Microkernel.list_processes s).

(** [_select_next_process(ready_processes)] of the base class.  Membership
    and [index] compare object identity.  The in-place sort of the caller's
    list is not returned. *)
Definition _select_next_process (self : t) (h : list Process.t)
    (ready_processes : list loc) : option loc :=
  match ready_processes with
  | [] => None
  | _ =>
      let sorted := list_sort (key_le h) ready_processes in
      match current_process self with
      | Some cur =>
          if decide (cur ∈ sorted) then
            let same_priority :=
              filter (fun p => priority_of h p = priority_of h cur) sorted in
            if (1 <? length same_priority)%nat then
              match list_index cur same_priority with
              | Some i =>
                  same_priority !! ((i + 1) `mod` length same_priority)%nat
              | None => None
              end
            else head sorted
          else head sorted
      | None => head sorted
      end
  end.

Definition set_current_process (p : option loc) (self : t) : t :=
  {| time_slice := time_slice self; running := running self;
     current_process := p |}.

(** [set_time_slice(new_slice)] *)
Definition set_time_slice (self : t) (new_slice : Z) : t :=
  {| time_slice := new_slice; running := running self;
     current_process := current_process self |}.

(** [_execute_process_slice(process)].  [during] is what other threads do
    to the process objects while this one sleeps for the quantum. *)
Definition _execute_process_slice (self : t) (h : list Process.t)
    (process : loc) (during : list Process.t → list Process.t)
  : t * list Process.t :=
  if negb (running self) then (self, h)
  else
    let self1 := set_current_process (Some process) self in
    let h1 := alter (Process.set_state RUNNING) process h in
    let h2 := during h1 in
    if decide (state_of h2 process = Some RUNNING) then
      (self1, alter (Process.set_state READY) process h2)
    else (self1, h2).

(** One turn of [_scheduling_loop]'s body, the exception handler and the
    pause left out. *)
Definition _scheduling_turn (self : t) (s : Microkernel.State)
    (during : list Process.t → list Process.t) : t * Microkernel.State :=
  let ready_processes := _get_ready_processes s in
  match ready_processes with
  | [] => (self, s)
  | _ =>
      match _select_next_process self (Microkernel.heap s) ready_processes with
      | Some next_process =>
          let '(self', h') :=
            _execute_process_slice self (Microkernel.heap s) next_process during in
          (self', {| Microkernel.heap := h'; Microkernel.kernel := Microkernel.kernel s |})
      | None => (self, s)
      end
  end.

End Scheduler.

(** The schedulers that override the selection. *)
Module PriorityScheduler.

(** [PriorityScheduler._select_next_process(ready_processes)] *)
Definition _select_next_process (h : list Process.t)
    (ready_processes : list loc) : option loc :=
  match ready_processes with
  | [] => None
  | _ => head (list_sort (Scheduler.key_le h) ready_processes)
  end.

End PriorityScheduler.

Module FIFOScheduler.

(** The sort key [p.created_at] compared with [<=]. *)
Definition created_le (h : list Process.t) (p q : loc) : bool :=
  Scheduler.created_of h p <=? Scheduler.created_of h q.

(** [FIFOScheduler._select_next_process(ready_processes)] *)
Definition _select_next_process (h : list Process.t)
    (ready_processes : list loc) : option loc :=
  match ready_processes with
  | [] => None
  | _ => head (list_sort (created_le h) ready_processes)
  end.

End FIFOScheduler.

(** ** Invariants of the kernel state *)

(** Recorded allocations are byte counts, the pool counter covers them and
    stays within the pool. *)
Definition mem_inv (s : Microkernel.State) : Prop :=
  Forall (fun p => 0 <= Process.memory_allocated p) (Microkernel.heap s) ∧
  Microkernel.recorded_total (Microkernel.heap s)
    <= Microkernel.memory_used (Microkernel.kernel s) ∧
  Microkernel.memory_used (Microkernel.kernel s)
    <= Microkernel.memory_pool (Microkernel.kernel s).

(** The table holds distinct, stored process objects. *)
Definition table_inv (s : Microkernel.State) : Prop :=
  NoDup (odict.values (Microkernel.processes (Microkernel.kernel s))) ∧
  Forall (fun l : loc => (l < length (Microkernel.heap s))%nat)
         (odict.values (Microkernel.processes (Microkernel.kernel s))).

(** ** Example runs *)

(** A client builds a process object, is granted 100 bytes and returns
    them. *)
Definition pool_trace : list Microkernel.Op :=
  [Microkernel.OpNew "p1" "worker" 1 0;
   Microkernel.OpAllocate 0 100;
   Microkernel.OpDeallocate 0].

(** A kernel whose pool has 100 bytes left. *)
Definition nearly_full : Microkernel.State :=
  Microkernel.run Microkernel.init_state
    [Microkernel.OpNew "p0" "hog" 1 0;
     Microkernel.OpAllocate 0 (1024 * 1024 - 100)].

(** Two processes are created, the first without a body. *)
Definition two_processes : list Microkernel.Op :=
  [Microkernel.OpCreate "a1" "init" false 1 10;
   Microkernel.OpCreate "b2" "shell" true 1 20].

(** The same process object is granted memory twice, then released. *)
Definition double_grant : list Microkernel.Op :=
  [Microkernel.OpNew "p1" "worker" 1 0;
   Microkernel.OpAllocate 0 100;
   Microkernel.OpAllocate 0 50].

(** A kernel with one live process ["rx"] and nobody called ["ghost"]. *)
Definition one_receiver : Microkernel.State :=
  Microkernel.run Microkernel.init_state
    [Microkernel.OpCreate "rx" "receiver" false 1 10].

(** An IPC manager with one pipe, ["data"], that ["reader"] may read and
    that holds nothing. *)
Definition one_pipe : IPCManager.t :=
  let m1 := (IPCManager.create_pipe IPCManager.init "data" 2 0).2 in
  (IPCManager.add_pipe_reader m1 "data" "reader").2.

(** A segment that ["alice"] may use. *)
Definition one_segment : SharedMemory.t :=
  SharedMemory.authorize_process (SharedMemory.init "seg" 1024) "alice".

(** A binary semaphore taken once, asked for again under a timeout that
    runs out, released and taken again. *)
Definition semaphore_events : list Semaphore.event :=
  [Semaphore.EvAcquire "a" None 0;
   Semaphore.EvAcquire "b" (Some 5) 0;
   Semaphore.EvAcquire "b" (Some 5) 5;
   Semaphore.EvRelease "a";
   Semaphore.EvAcquire "c" None 0].

(** ** The selection rule in the words of the specification *)

(** [p] is scheduled no later than [q]: higher priority first, then earlier
    creation. *)
Definition runs_before (h : list Process.t) (p q : loc) : Prop :=
  Scheduler.priority_of h q < Scheduler.priority_of h p ∨
  (Scheduler.priority_of h p = Scheduler.priority_of h q ∧
   Scheduler.created_of h p <= Scheduler.created_of h q).

(** "If a current process exists and more than one ready process shares its
    priority band, it returns the cyclically next process within that band
    after the current one; otherwise it returns the first entry of the
    sorted ready set."  The band is read in sorted order; the place after
    the current process is only asked for where the current process has a
    place in the band. *)
Definition round_robin_as_specified (self : Scheduler.t) (h : list Process.t)
    (ready : list loc) : Prop :=
  let sorted := list_sort (Scheduler.key_le h) ready in
  let result := Scheduler._select_next_process self h ready in
  match Scheduler.current_process self with
  | Some cur =>
      let band :=
        filter (fun p => Scheduler.priority_of h p = Scheduler.priority_of h cur)
               sorted in
      if decide (1 < length band)%nat then
        ∃ next, result = Some next ∧ next ∈ band ∧
                ∀ i, list_index cur band = Some i →
                     band !! ((i + 1) `mod` length band)%nat = Some next
      else result = head sorted
  | None => result = head sorted
  end.

(** Four processes are created; the scheduler last ran ["x"], which has
    since been terminated. *)
Definition after_current_died : Microkernel.State :=
  Microkernel.run Microkernel.init_state
    [Microkernel.OpCreate "x" "current" false 1 1;
     Microkernel.OpCreate "h" "urgent" false 5 2;
     Microkernel.OpCreate "a" "peer-a" false 1 3;
     Microkernel.OpCreate "b" "peer-b" false 1 4;
     Microkernel.OpTerminate "x"].

Definition scheduler_on_x : Scheduler.t :=
  {| Scheduler.time_slice := 100; Scheduler.running := true;
     Scheduler.current_process := Some 0%nat |}.

(** Three ready processes of one priority; the scheduler last ran the
    second. *)
Definition three_peers : Microkernel.State :=
  Microkernel.run Microkernel.init_state
    [Microkernel.OpCreate "a" "peer-a" false 1 1;
     Microkernel.OpCreate "b" "peer-b" false 1 2;
     Microkernel.OpCreate "c" "peer-c" false 1 3].

Definition scheduler_on_b : Scheduler.t :=
  {| Scheduler.time_slice := 100; Scheduler.running := true;
     Scheduler.current_process := Some 1%nat |}.

(** The pool counter equals what the process objects record. *)
Definition ledger_exact (s : Microkernel.State) : Prop :=
  Microkernel.recorded_total (Microkernel.heap s)
  = Microkernel.memory_used (Microkernel.kernel s).

(** A grant goes to a stored process object that holds nothing. *)
Definition first_grant (s : Microkernel.State) (o : Microkernel.Op) : Prop :=
  match o with
  | Microkernel.OpAllocate process _ =>
      ∃ p, Microkernel.heap s !! process = Some p ∧
           Process.memory_allocated p = 0
  | _ => True
  end.

(** Calls of the process lifecycle. *)
Definition lifecycle_op (o : Microkernel.Op) : Prop :=
  match o with
  | Microkernel.OpCreate _ _ _ _ _ | Microkernel.OpTerminate _ => True
  | _ => False
  end.

(** ** Further invariants and example states *)

(** An id is in the process table exactly when it has a message queue. *)
Definition inbox_inv (k : Microkernel.t) : Prop :=
  ∀ pid, is_Some (Microkernel.get_process k pid)
         ↔ is_Some (Microkernel.message_queue k !! pid).

(** A fresh kernel on which two processes were created and one message was
    sent. *)
Definition busy_calls : list Microkernel.Call :=
  [Microkernel.CallOp (Microkernel.OpCreate "a1" "init" false 1 10);
   Microkernel.CallOp (Microkernel.OpCreate "b2" "shell" true 1 20);
   Microkernel.CallSend "a1" "b2" (PyStr "hello") 30].

Definition busy_system : Microkernel.System :=
  Microkernel.set_sys_state
    (Microkernel.call_run Microkernel.init_state busy_calls)
    Microkernel.init_system.

(** The bytes recorded on the process objects that the table holds. *)
Definition table_total (h : list Process.t) (d : list (string * loc)) : Z :=
  foldr (fun kv acc => from_option Process.memory_allocated 0 (h !! kv.2) + acc)
        0 d.

(** The table accounts for all the memory in use. *)
Definition table_ledger (s : Microkernel.State) : Prop :=
  NoDup (odict.keys (Microkernel.processes (Microkernel.kernel s))) ∧
  table_inv s ∧ mem_inv s ∧
  Microkernel.memory_used (Microkernel.kernel s)
  = table_total (Microkernel.heap s)
                (Microkernel.processes (Microkernel.kernel s)).

(** Calls that keep it so: no memory is granted or returned behind the
    table's back and no id is created twice. *)
Definition accounted_call (s : Microkernel.State) (c : Microkernel.Call) : Prop :=
  match c with
  | Microkernel.CallOp (Microkernel.OpCreate pid _ _ _ _) =>
      Microkernel.get_process (Microkernel.kernel s) pid = None
  | Microkernel.CallOp (Microkernel.OpAllocate _ _)
  | Microkernel.CallOp (Microkernel.OpDeallocate _) => False
  | _ => True
  end.

Fixpoint accounted_run (s : Microkernel.State) (cs : list Microkernel.Call)
  : Prop :=
  match cs with
  | [] => True
  | c :: cs' => accounted_call s c ∧ accounted_run (Microkernel.call_step s c) cs'
  end.

(** A kernel with one registered service. *)
Definition one_service : Microkernel.System :=
  (Microkernel.register_service Microkernel.init_system "fs" (PyObj 1)).2.

(** Events of a semaphore that ended in a successful acquisition, and
    releases, along a run. *)
Fixpoint acquired_count (s : Semaphore.t) (evs : list Semaphore.event) : Z :=
  match evs with
  | [] => 0
  | e :: evs' =>
      (match e with
       | Semaphore.EvAcquire process_id timeout elapsed =>
           match (Semaphore.acquire_turn s process_id timeout elapsed).1 with
           | Semaphore.Acquired => 1
           | _ => 0
           end
       | Semaphore.EvRelease _ => 0
       end) + acquired_count (Semaphore.apply_event s e) evs'
  end.

Fixpoint released_count (evs : list Semaphore.event) : Z :=
  match evs with
  | [] => 0
  | Semaphore.EvRelease _ :: evs' => 1 + released_count evs'
  | Semaphore.EvAcquire _ _ _ :: evs' => released_count evs'
  end.

(** Calls on one shared-memory segment. *)
Inductive shm_op : Type :=
| ShmAuthorize (process_id : string)
| ShmRead (process_id key : string)
| ShmWrite (process_id key : string) (value : PyValue).

Definition shm_step (m : SharedMemory.t) (o : shm_op) : SharedMemory.t :=
  match o with
  | ShmAuthorize process_id => SharedMemory.authorize_process m process_id
  | ShmRead process_id key => (SharedMemory.read m process_id key).2
  | ShmWrite process_id key value =>
      (SharedMemory.write m process_id key value).2
  end.

Definition shm_run (m : SharedMemory.t) (os : list shm_op) : SharedMemory.t :=
  foldl shm_step m os.

(** The reads and writes of a run whose caller was authorized when it
    called. *)
Fixpoint shm_granted (m : SharedMemory.t) (os : list shm_op) : Z :=
  match os with
  | [] => 0
  | o :: os' =>
      (match o with
       | ShmAuthorize _ => 0
       | ShmRead process_id _ | ShmWrite process_id _ _ =>
           if decide (process_id ∈ SharedMemory.authorized_processes m)
           then 1 else 0
       end) + shm_granted (shm_step m o) os'
  end.

(** The call does not write to [key]. *)
Definition shm_keeps (key : string) (o : shm_op) : Prop :=
  match o with
  | ShmWrite _ key' _ => key' ≠ key
  | _ => True
  end.

Definition shm_calls : list shm_op :=
  [ShmWrite "bob" "x" (PyInt 1); ShmAuthorize "bob"; ShmWrite "bob" "x" (PyInt 2);
   ShmRead "bob" "x"; ShmRead "eve" "x"].

(** Calls on one pipe. *)
Inductive pipe_op : Type :=
| PipeAddReader (process_id : string)
| PipeAddWriter (process_id : string)
| PipeWrite (process_id : string) (data : PyValue) (timeout : option Z)
| PipeRead (process_id : string) (timeout : option Z).

Definition pipe_step (p : Pipe.t) (o : pipe_op) : Pipe.t :=
  match o with
  | PipeAddReader process_id => Pipe.add_reader p process_id
  | PipeAddWriter process_id => Pipe.add_writer p process_id
  | PipeWrite process_id data timeout => (Pipe.write p process_id data timeout).2
  | PipeRead process_id timeout => (Pipe.read p process_id timeout).2
  end.

Definition pipe_run (p : Pipe.t) (os : list pipe_op) : Pipe.t :=
  foldl pipe_step p os.

(** A timeout the queue accepts: none, or not negative. *)
Definition timeout_ok (timeout : option Z) : Prop :=
  match timeout with
  | Some tmo => 0 <= tmo
  | None => True
  end.

Definition pipe_calls : list pipe_op :=
  [PipeAddWriter "w"; PipeAddReader "r";
   PipeWrite "w" (PyInt 1) (Some 1); PipeWrite "w" (PyInt 2) (Some 1);
   PipeWrite "w" (PyInt 3) (Some 1); PipeRead "r" None;
   PipeWrite "w" (PyInt 4) None].

(** [k] turns of the scheduling loop during which no other thread touches
    the process objects. *)
Fixpoint quiet_turns (k : nat) (self : Scheduler.t) (s : Microkernel.State)
  : Scheduler.t * Microkernel.State :=
  match k with
  | O => (self, s)
  | S k' =>
      let '(self', s') := Scheduler._scheduling_turn self s id in
      quiet_turns k' self' s'
  end.

(** * Properties *)

(** ** Ordered dictionaries *)

Section odict_facts.
Context {V : Type}.
Implicit Types (d : list (string * V)) (k : string) (v : V).

Lemma odict_get_set_eq d k v : odict.get k (odict.set k v d) = Some v.
Proof.
  induction d as [|[k' v'] d IH]; simpl.
  - by rewrite decide_True.
  - destruct (decide (k = k')); simpl.
    + by rewrite decide_True.
    + by rewrite decide_False.
Qed.

Lemma odict_get_set_ne d k k' v :
  k ≠ k' → odict.get k' (odict.set k v d) = odict.get k' d.
Proof.
  intros Hne. induction d as [|[k1 v1] d IH]; simpl.
  - by rewrite decide_False.
  - destruct (decide (k = k1)) as [->|]; simpl.
    + by rewrite !decide_False.
    + destruct (decide (k' = k1)); [done | apply IH].
Qed.

Lemma odict_get_del_eq d k : odict.get k (odict.del k d) = None.
Proof.
  induction d as [|[k1 v1] d IH]; simpl; [done|].
  destruct (decide (k = k1)); simpl; [done|].
  by rewrite decide_False.
Qed.

Lemma odict_get_del_ne d k k' :
  k ≠ k' → odict.get k' (odict.del k d) = odict.get k' d.
Proof.
  intros Hne. induction d as [|[k1 v1] d IH]; simpl; [done|].
  destruct (decide (k = k1)) as [->|]; simpl.
  - by rewrite decide_False.
  - by rewrite IH.
Qed.

Lemma odict_get_values d k v : odict.get k d = Some v → v ∈ odict.values d.
Proof.
  unfold odict.values.
  induction d as [|[k1 v1] d IH]; simpl; [done|].
  destruct (decide (k = k1)).
  - intros [= ->]. left.
  - intros H. right. by apply IH.
Qed.

Lemma odict_values_del d k v :
  v ∈ odict.values (odict.del k d) → v ∈ odict.values d.
Proof.
  unfold odict.values.
  induction d as [|[k1 v1] d IH]; simpl; [done|].
  destruct (decide (k = k1)); simpl.
  - intros H. right. by apply IH.
  - intros [->|H]%elem_of_cons; [left | right; by apply IH].
Qed.

Lemma odict_values_set d k v x :
  x ∈ odict.values (odict.set k v d) → x = v ∨ x ∈ odict.values d.
Proof.
  unfold odict.values.
  induction d as [|[k1 v1] d IH]; simpl.
  - intros ->%list_elem_of_singleton. by left.
  - destruct (decide (k = k1)); simpl.
    + intros [->|H]%elem_of_cons; [by left | right; by right].
    + intros [->|H]%elem_of_cons; [right; left |].
      destruct (IH H) as [->|?]; [by left | right; by right].
Qed.

Lemma odict_NoDup_values_del d k :
  NoDup (odict.values d) → NoDup (odict.values (odict.del k d)).
Proof.
  induction d as [|[k1 v1] d IH]; simpl; [done|].
  intros [Hn Hd]%NoDup_cons.
  destruct (decide (k = k1)); simpl; [by apply IH|].
  apply NoDup_cons. split; [|by apply IH].
  intros H. apply Hn. by eapply odict_values_del.
Qed.

Lemma odict_NoDup_values_set d k v :
  v ∉ odict.values d → NoDup (odict.values d) →
  NoDup (odict.values (odict.set k v d)).
Proof.
  induction d as [|[k1 v1] d IH]; simpl.
  - intros _ _. apply NoDup_singleton.
  - intros Hv [Hn Hd]%NoDup_cons.
    apply not_elem_of_cons in Hv as [Hv1 Hv].
    destruct (decide (k = k1)); simpl.
    + apply NoDup_cons. by split.
    + apply NoDup_cons. split; [|by apply IH].
      intros [->|H]%odict_values_set; [done | by apply Hn].
Qed.

(** With pairwise distinct values, deleting a key removes its value. *)
Lemma odict_value_gone d k v :
  odict.get k d = Some v → NoDup (odict.values d) →
  v ∉ odict.values (odict.del k d).
Proof.
  induction d as [|[k1 v1] d IH]; simpl; [done|].
  intros Hget [Hn Hd]%NoDup_cons.
  destruct (decide (k = k1)) as [->|Hne].
  - injection Hget as ->. intros H. apply Hn. by eapply odict_values_del.
  - simpl. apply not_elem_of_cons. split; [|by apply IH].
    intros ->. apply Hn. by eapply odict_get_values.
Qed.

End odict_facts.

(** ** The memory ledger *)

Import Microkernel.

Lemma recorded_total_app h p :
  recorded_total (h ++ [p]) = recorded_total h + Process.memory_allocated p.
Proof.
  unfold recorded_total. induction h as [|q h IH]; simpl; [lia|].
  rewrite IH. lia.
Qed.

Lemma recorded_total_alter f h l :
  recorded_total (alter f l h) =
  recorded_total h
  - from_option Process.memory_allocated 0 (h !! l)
  + from_option Process.memory_allocated 0 (f <$> h !! l).
Proof.
  unfold recorded_total. revert l.
  induction h as [|q h IH]; intros [|l]; simpl; try lia.
  specialize (IH l). unfold alter in IH. lia.
Qed.

Lemma recorded_total_nonneg h :
  Forall (fun p => 0 <= Process.memory_allocated p) h → 0 <= recorded_total h.
Proof.
  unfold recorded_total. induction 1; simpl; lia.
Qed.

Lemma recorded_total_ge h l p :
  Forall (fun p => 0 <= Process.memory_allocated p) h →
  h !! l = Some p → Process.memory_allocated p <= recorded_total h.
Proof.
  intros HF. revert l. induction HF as [|q h Hq HF IH]; intros [|l]; simpl;
    try done.
  - intros [= ->]. pose proof (recorded_total_nonneg h HF).
    unfold recorded_total in *. lia.
  - intros H. specialize (IH _ H). unfold recorded_total in *. lia.
Qed.

Lemma Forall_alter_nonneg f (h : list Process.t) l :
  (∀ p, 0 <= Process.memory_allocated p → 0 <= Process.memory_allocated (f p)) →
  Forall (fun p => 0 <= Process.memory_allocated p) h →
  Forall (fun p => 0 <= Process.memory_allocated p) (alter f l h).
Proof.
  intros Hf HF. revert l.
  induction HF as [|q h Hq HF IH]; intros [|l]; simpl; constructor; auto.
  apply (IH l).
Qed.

(** Alterations that leave [memory_allocated] alone leave the ledger alone. *)
Lemma recorded_total_alter_same f h l :
  (∀ p, Process.memory_allocated (f p) = Process.memory_allocated p) →
  recorded_total (alter f l h) = recorded_total h.
Proof.
  intros Hf. rewrite recorded_total_alter.
  destruct (h !! l); simpl; [rewrite Hf|]; lia.
Qed.

Lemma mem_inv_init : mem_inv init_state.
Proof. repeat split; simpl; [constructor | done | done]. Qed.

Lemma mem_inv_new p s :
  Process.memory_allocated p = 0 → mem_inv s → mem_inv (new_process p s).2.
Proof.
  intros Hp (HF & Hle & Hpool). repeat split; simpl; [| |done].
  - apply Forall_app. split; [done|]. constructor; [lia | constructor].
  - rewrite recorded_total_app. lia.
Qed.

Lemma mem_inv_allocate s process size :
  0 <= size → mem_inv s → mem_inv (allocate_memory s process size).2.
Proof.
  intros Hsz (HF & Hle & Hpool). unfold allocate_memory.
  destruct (Z.gtb_spec (memory_used (kernel s) + size) (memory_pool (kernel s)));
    simpl; [done|].
  repeat split; simpl; [| |lia].
  - apply Forall_alter_nonneg; [|done]. intros; simpl; lia.
  - rewrite recorded_total_alter.
    destruct (heap s !! process) as [p|] eqn:E; simpl; [|lia].
    rewrite Forall_lookup in HF. specialize (HF _ _ E). simpl in HF. lia.
Qed.

Lemma mem_inv_deallocate s process :
  mem_inv s → mem_inv (deallocate_memory s process).2.
Proof.
  intros (HF & Hle & Hpool). unfold deallocate_memory.
  destruct (heap s !! process) as [p|] eqn:E; [|done].
  destruct (Z.gtb_spec (Process.memory_allocated p) 0); simpl; [|done].
  repeat split; simpl; [| |lia].
  - apply Forall_alter_nonneg; [|done]. intros; simpl; lia.
  - rewrite recorded_total_alter, E. simpl. lia.
Qed.

Lemma mem_inv_heap_same s h :
  Forall (fun p => 0 <= Process.memory_allocated p) h →
  recorded_total h = recorded_total (heap s) →
  ∀ k, memory_used k = memory_used (kernel s) →
       memory_pool k = memory_pool (kernel s) →
       mem_inv s → mem_inv {| heap := h; kernel := k |}.
Proof.
  intros HF Ht k Hu Hp (_ & Hle & Hpool). repeat split; simpl; [done|lia|lia].
Qed.

Lemma mem_inv_create s pid name has_target priority now :
  mem_inv s → mem_inv (create_process s pid name has_target priority now).2.
Proof.
  intros Hs. unfold create_process.
  pose proof (mem_inv_new (Process.init pid name priority now) s eq_refl Hs) as H1.
  destruct (new_process _ s) as [process s1] eqn:E1. simpl in H1.
  pose proof (mem_inv_allocate s1 process 1024 ltac:(lia) H1) as H2.
  destruct (allocate_memory s1 process 1024) as [ok s2] eqn:E2. simpl in H2.
  destruct ok; simpl; [|done].
  apply (mem_inv_heap_same s2); try done.
  - destruct has_target; [|apply H2].
    apply Forall_alter_nonneg; [by intros|apply H2].
  - destruct has_target; [|done]. by apply recorded_total_alter_same.
Qed.

Lemma mem_inv_terminate s pid :
  mem_inv s → mem_inv (terminate_process s pid).2.
Proof.
  intros Hs. unfold terminate_process.
  destruct (odict.get pid (processes (kernel s))) as [process|]; [|done].
  set (s1 := {| heap := alter (Process.set_state TERMINATED) process (heap s);
                kernel := kernel s |}).
  assert (mem_inv s1) as H1.
  { apply (mem_inv_heap_same s); try done.
    - apply Forall_alter_nonneg; [by intros|apply Hs].
    - by apply recorded_total_alter_same. }
  pose proof (mem_inv_deallocate s1 process H1) as H2.
  destruct (deallocate_memory s1 process) as [b s2]. simpl in *.
  apply (mem_inv_heap_same s2); try done. apply H2.
Qed.

Lemma mem_inv_step s o : op_size_ok o → mem_inv s → mem_inv (step s o).
Proof.
  destruct o; simpl; intros Hok Hs.
  - by apply mem_inv_new.
  - by apply mem_inv_allocate.
  - by apply mem_inv_deallocate.
  - by apply mem_inv_create.
  - by apply mem_inv_terminate.
Qed.

Lemma mem_inv_run ops : ∀ s,
  Forall op_size_ok ops → mem_inv s → mem_inv (run s ops).
Proof.
  induction ops as [|o ops IH]; intros s Hok Hs; simpl; [done|].
  apply Forall_cons in Hok as [Ho Hok].
  apply IH; [done|]. by apply mem_inv_step.
Qed.

(** No operation changes the capacity. *)
Lemma memory_pool_step s o :
  memory_pool (kernel (step s o)) = memory_pool (kernel s).
Proof.
  destruct o; simpl; try done.
  - unfold allocate_memory. by destruct (_ >? _).
  - unfold deallocate_memory. destruct (heap s !! process); [|done].
    by destruct (_ >? _).
  - unfold create_process, new_process, allocate_memory. simpl.
    by destruct (_ >? _).
  - unfold terminate_process.
    destruct (odict.get pid (processes (kernel s))); [|done].
    unfold deallocate_memory. simpl.
    destruct (alter _ _ _ !! _); [|done]. by destruct (_ >? _).
Qed.

Lemma memory_pool_run ops : ∀ s,
  memory_pool (kernel (run s ops)) = memory_pool (kernel s).
Proof.
  induction ops as [|o ops IH]; intros s; simpl; [done|].
  unfold run in IH. by rewrite IH, memory_pool_step.
Qed.

(** ** The process table *)

Lemma table_inv_init : table_inv init_state.
Proof. split; simpl; constructor. Qed.

Lemma table_inv_same s h k :
  processes k = processes (kernel s) → (length (heap s) <= length h)%nat →
  table_inv s → table_inv {| heap := h; kernel := k |}.
Proof.
  intros Hp Hl [Hn HF]. split; simpl; rewrite Hp; [done|].
  eapply Forall_impl; [exact HF|]. simpl. lia.
Qed.

Lemma table_inv_new p s : table_inv s → table_inv (new_process p s).2.
Proof.
  intros Hs. apply (table_inv_same s); [done| |done].
  simpl. rewrite length_app. lia.
Qed.

Lemma allocate_memory_frame s process size :
  processes (kernel (allocate_memory s process size).2) = processes (kernel s) ∧
  message_queue (kernel (allocate_memory s process size).2)
    = message_queue (kernel s) ∧
  stats (kernel (allocate_memory s process size).2) = stats (kernel s) ∧
  length (heap (allocate_memory s process size).2) = length (heap s).
Proof.
  unfold allocate_memory. destruct (_ >? _); simpl; [done|].
  by rewrite length_alter.
Qed.

Lemma deallocate_memory_frame s process :
  processes (kernel (deallocate_memory s process).2) = processes (kernel s) ∧
  message_queue (kernel (deallocate_memory s process).2)
    = message_queue (kernel s) ∧
  stats (kernel (deallocate_memory s process).2) = stats (kernel s) ∧
  length (heap (deallocate_memory s process).2) = length (heap s).
Proof.
  unfold deallocate_memory. destruct (heap s !! process); [|done].
  destruct (_ >? _); simpl; [|done]. by rewrite length_alter.
Qed.

Lemma table_inv_allocate s process size :
  table_inv s → table_inv (allocate_memory s process size).2.
Proof.
  intros Hs. destruct (allocate_memory_frame s process size) as (Hp & _ & _ & Hl).
  destruct (allocate_memory s process size) as [b [h k]]. simpl in *.
  apply (table_inv_same s); [done|lia|done].
Qed.

Lemma table_inv_deallocate s process :
  table_inv s → table_inv (deallocate_memory s process).2.
Proof.
  intros Hs. destruct (deallocate_memory_frame s process) as (Hp & _ & _ & Hl).
  destruct (deallocate_memory s process) as [b [h k]]. simpl in *.
  apply (table_inv_same s); [done|lia|done].
Qed.

Lemma table_inv_create s pid name has_target priority now :
  table_inv s → table_inv (create_process s pid name has_target priority now).2.
Proof.
  intros [Hn HF]. unfold create_process, new_process.
  set (s1 := {| heap := heap s ++ _; kernel := kernel s |}).
  destruct (allocate_memory_frame s1 (length (heap s)) 1024) as (Hp & _ & _ & Hl).
  destruct (allocate_memory s1 (length (heap s)) 1024) as [ok s2].
  simpl in Hp, Hl. rewrite length_app in Hl. simpl in Hl.
  destruct ok; simpl.
  - assert (length (heap s) ∉ odict.values (processes (kernel s))) as Hfresh.
    { intros Hin. rewrite Forall_forall in HF. specialize (HF _ Hin). lia. }
    split; simpl; rewrite Hp.
    + by apply odict_NoDup_values_set.
    + apply Forall_forall. intros l Hin.
      assert (length (if has_target then alter (fun p => Process.set_state READY
                (Process.set_thread true p)) (length (heap s)) (heap s2)
              else heap s2) = length (heap s2)) as ->.
      { destruct has_target; [apply length_alter | done]. }
      apply odict_values_set in Hin as [->|Hin]; [lia|].
      rewrite Forall_forall in HF. specialize (HF _ Hin). lia.
  - split; simpl; rewrite Hp; [done|].
    eapply Forall_impl; [exact HF|]. simpl. lia.
Qed.

Lemma table_inv_terminate s pid :
  table_inv s → table_inv (terminate_process s pid).2.
Proof.
  intros [Hn HF]. unfold terminate_process.
  destruct (odict.get pid (processes (kernel s))) as [process|]; [|done].
  set (s1 := {| heap := alter _ process (heap s); kernel := kernel s |}).
  destruct (deallocate_memory_frame s1 process) as (Hp & _ & _ & Hl).
  destruct (deallocate_memory s1 process) as [b s2].
  simpl in Hp, Hl. rewrite length_alter in Hl. simpl.
  split; simpl; rewrite Hp.
  - by apply odict_NoDup_values_del.
  - apply Forall_forall. intros l Hin%odict_values_del.
    rewrite Forall_forall in HF. specialize (HF _ Hin). lia.
Qed.

Lemma table_inv_run ops : ∀ s, table_inv s → table_inv (run s ops).
Proof.
  induction ops as [|o ops IH]; intros s Hs; simpl; [done|].
  apply IH. destruct o; simpl.
  - by apply table_inv_new.
  - by apply table_inv_allocate.
  - by apply table_inv_deallocate.
  - by apply table_inv_create.
  - by apply table_inv_terminate.
Qed.

(** ** Where the ledger is exact *)

Lemma ledger_exact_allocate s process size :
  first_grant s (OpAllocate process size) → ledger_exact s →
  ledger_exact (allocate_memory s process size).2.
Proof.
  intros (p & Hp & H0) Hs. unfold ledger_exact, allocate_memory in *.
  destruct (_ >? _); simpl; [done|].
  rewrite recorded_total_alter, Hp. simpl. lia.
Qed.

Lemma ledger_exact_deallocate s process :
  ledger_exact s → ledger_exact (deallocate_memory s process).2.
Proof.
  intros Hs. unfold ledger_exact, deallocate_memory in *.
  destruct (heap s !! process) as [p|] eqn:Hp; [|done].
  destruct (_ >? _); simpl; [|done].
  rewrite recorded_total_alter, Hp. simpl. lia.
Qed.

Lemma ledger_exact_create s pid name has_target priority now :
  ledger_exact s →
  ledger_exact (create_process s pid name has_target priority now).2.
Proof.
  intros Hs. unfold create_process, new_process.
  set (p0 := Process.init pid name priority now).
  set (s1 := {| heap := heap s ++ [p0]; kernel := kernel s |}).
  assert (ledger_exact s1) as H1.
  { unfold ledger_exact in *. simpl. rewrite recorded_total_app. simpl. lia. }
  assert (first_grant s1 (OpAllocate (length (heap s)) 1024)) as Hg.
  { exists p0. split; [|done]. simpl. by rewrite lookup_app_r, Nat.sub_diag. }
  pose proof (ledger_exact_allocate s1 _ 1024 Hg H1) as H2.
  destruct (allocate_memory s1 (length (heap s)) 1024) as [ok s2].
  simpl in H2. destruct ok; simpl; [|done].
  unfold ledger_exact in *. simpl.
  destruct has_target; [|done]. by rewrite recorded_total_alter_same.
Qed.

Lemma ledger_exact_terminate s pid :
  ledger_exact s → ledger_exact (terminate_process s pid).2.
Proof.
  intros Hs. unfold terminate_process.
  destruct (odict.get pid (processes (kernel s))) as [process|]; [|done].
  set (s1 := {| heap := alter _ process (heap s); kernel := kernel s |}).
  assert (ledger_exact s1) as H1.
  { unfold ledger_exact in *. simpl. by rewrite recorded_total_alter_same. }
  pose proof (ledger_exact_deallocate s1 process H1) as H2.
  by destruct (deallocate_memory s1 process) as [b s2].
Qed.

(** Every call keeps the ledger exact, a grant provided it is the first
    one its process object holds. *)
Lemma ledger_exact_step s o :
  first_grant s o → ledger_exact s → ledger_exact (step s o).
Proof.
  destruct o; simpl; intros Hg Hs.
  - unfold ledger_exact in *. simpl. rewrite recorded_total_app. simpl. lia.
  - by apply ledger_exact_allocate.
  - by apply ledger_exact_deallocate.
  - by apply ledger_exact_create.
  - by apply ledger_exact_terminate.
Qed.

(** Through [create_process] and [terminate_process] alone the counter and
    the records agree. *)
Lemma ledger_exact_lifecycle ops :
  Forall lifecycle_op ops → ledger_exact (run init_state ops).
Proof.
  assert (ledger_exact init_state) as H0 by done.
  revert H0. generalize init_state.
  induction ops as [|o ops IH]; intros s Hs Hok; simpl; [done|].
  apply Forall_cons in Hok as [Ho Hok]. apply IH; [|done].
  apply ledger_exact_step; [|done]. by destruct o.
Qed.

(** ** Memory pool and process lifecycle *)

(** C1: along every sequence of kernel calls whose [allocate_memory] sizes
    are non-negative, started from a fresh kernel, the used counter stays
    between zero and the fixed capacity of 1 MiB; in every state so reached
    [allocate_memory] returns false and changes nothing when
    [used + size > capacity], and [deallocate_memory] lowers the counter by
    an amount between zero and the allocation recorded on the process. *)
Theorem memory_used_within_pool (ops : list Op) :
  Forall op_size_ok ops →
  let s := run init_state ops in
  0 <= memory_used (kernel s) <= memory_pool (kernel s) ∧
  memory_pool (kernel s) = 1024 * 1024 ∧
  (∀ process size,
     memory_used (kernel s) + size > memory_pool (kernel s) →
     allocate_memory s process size = (false, s)) ∧
  (∀ process p,
     heap s !! process = Some p →
     let s' := (deallocate_memory s process).2 in
     0 <= memory_used (kernel s) - memory_used (kernel s')
       <= Process.memory_allocated p).
Proof.
  intros Hok s.
  pose proof (mem_inv_run ops init_state Hok mem_inv_init) as (HF & Hle & Hpool).
  fold s in HF, Hle, Hpool.
  pose proof (recorded_total_nonneg _ HF) as H0.
  split; [lia|]. split; [apply (memory_pool_run ops init_state)|]. split.
  - intros process size Hgt. unfold allocate_memory.
    destruct (Z.gtb_spec (memory_used (kernel s) + size) (memory_pool (kernel s)));
      [done|lia].
  - intros process p Hp. unfold deallocate_memory. rewrite Hp.
    rewrite Forall_lookup in HF. specialize (HF _ _ Hp). simpl in HF.
    destruct (Z.gtb_spec (Process.memory_allocated p) 0); simpl; lia.
Qed.

Lemma memory_used_within_pool_witness :
  Forall op_size_ok pool_trace ∧
  0 <= memory_used (kernel (run init_state pool_trace))
    <= memory_pool (kernel (run init_state pool_trace)).
Proof.
  assert (Forall op_size_ok pool_trace) as H.
  { repeat constructor; simpl; lia. }
  split; [exact H|].
  exact (proj1 (memory_used_within_pool pool_trace H)).
Defined.

(** C2: when fewer than 1024 bytes are free, [create_process] raises its
    out-of-memory exception and the kernel is as before: same process
    table (so no process was inserted), same message queues (no inbox was
    created), same used counter and same processes-created statistic; the
    process objects that existed are untouched. *)
Theorem create_process_out_of_memory (s : State) (pid name : string)
    (has_target : bool) (priority now : Z) :
  memory_pool (kernel s) - memory_used (kernel s) < 1024 →
  ∃ s',
    create_process s pid name has_target priority now
      = (Raises (Exception (no_memory_msg name)), s') ∧
    kernel s' = kernel s ∧
    list_processes s' = list_processes s ∧
    get_process (kernel s') pid = get_process (kernel s) pid ∧
    message_queue (kernel s') = message_queue (kernel s) ∧
    memory_used (kernel s') = memory_used (kernel s) ∧
    processes_created (stats (kernel s'))
      = processes_created (stats (kernel s)) ∧
    (∀ l p, heap s !! l = Some p → heap s' !! l = Some p).
Proof.
  intros Hfree. unfold create_process, new_process, allocate_memory. simpl.
  destruct (Z.gtb_spec (memory_used (kernel s) + 1024) (memory_pool (kernel s)));
    [|lia].
  simpl. eexists. split; [reflexivity|]. simpl.
  repeat split; try done.
  intros l p Hl. by apply lookup_app_l_Some.
Qed.

Lemma create_process_out_of_memory_witness :
  memory_pool (kernel nearly_full) - memory_used (kernel nearly_full) < 1024 ∧
  ∃ s',
    create_process nearly_full "c3" "late" true 1 30
      = (Raises (Exception (no_memory_msg "late")), s') ∧
    kernel s' = kernel nearly_full.
Proof.
  assert (memory_pool (kernel nearly_full) - memory_used (kernel nearly_full)
          < 1024) as H by (vm_compute; reflexivity).
  split; [exact H|].
  destruct (create_process_out_of_memory nearly_full "c3" "late" true 1 30 H)
    as (s' & Hc & Hk & _).
  exists s'. by split.
Defined.

(** C3: in every state reached from a fresh kernel (allocation sizes
    non-negative), [terminate_process] on an id that is not in the table
    returns false and leaves the state as it is; on an id that is in the
    table it returns true, and afterwards the process object is not in
    [list_processes], the id is unknown to the table, its message queue is
    gone and the used counter is lower by exactly the allocation recorded
    on the process. *)
Theorem terminate_process_spec (ops : list Op) (pid : string) :
  Forall op_size_ok ops →
  let s := run init_state ops in
  match get_process (kernel s) pid with
  | None => terminate_process s pid = (false, s)
  | Some process =>
      ∃ p s',
        heap s !! process = Some p ∧
        terminate_process s pid = (true, s') ∧
        (process ∉ list_processes s') ∧
        get_process (kernel s') pid = None ∧
        message_queue (kernel s') !! pid = None ∧
        memory_used (kernel s')
          = memory_used (kernel s) - Process.memory_allocated p
  end.
Proof.
  intros Hok s.
  pose proof (mem_inv_run ops init_state Hok mem_inv_init) as (HF & _ & _).
  pose proof (table_inv_run ops init_state table_inv_init) as [Hn Hv].
  fold s in HF, Hn, Hv.
  unfold get_process, terminate_process.
  destruct (odict.get pid (processes (kernel s))) as [process|] eqn:Hget;
    [|done].
  assert (process < length (heap s))%nat as Hlt.
  { rewrite Forall_forall in Hv. apply Hv. by eapply odict_get_values. }
  destruct (lookup_lt_is_Some_2 _ _ Hlt) as [p Hp].
  rewrite Forall_lookup in HF. specialize (HF _ _ Hp). simpl in HF.
  exists p. unfold deallocate_memory. simpl.
  rewrite list_lookup_alter_eq, Hp. simpl.
  destruct (Z.gtb_spec (Process.memory_allocated p) 0); simpl;
    eexists; (split; [done|]); (split; [reflexivity|]); simpl;
    (split; [by apply odict_value_gone|]);
    (split; [apply odict_get_del_eq|]);
    (split; [apply lookup_delete_eq|]); lia.
Qed.

Lemma terminate_process_spec_witness :
  Forall op_size_ok two_processes ∧
  ∃ p s',
    heap (run init_state two_processes) !! (1%nat) = Some p ∧
    terminate_process (run init_state two_processes) "b2" = (true, s') ∧
    memory_used (kernel s')
      = memory_used (kernel (run init_state two_processes))
        - Process.memory_allocated p.
Proof.
  assert (Forall op_size_ok two_processes) as H.
  { repeat constructor. }
  split; [exact H|].
  destruct (terminate_process_spec two_processes "b2" H)
    as (p & s' & Hp & Ht & _ & _ & _ & Hm).
  exists p, s'. by repeat split.
Defined.

(** C7 (the claim fails on the code): granting memory to a process object
    that already holds some adds to the pool counter but overwrites the
    amount recorded on the process.  After grants of 100 and 50 bytes the
    counter is 150 while the process records 50; [deallocate_memory] then
    gives back 50, and 100 bytes stay counted though no process records
    them. *)
Theorem allocate_twice_loses_ledger :
  let s := run init_state double_grant in
  let s' := (deallocate_memory s 0%nat).2 in
  memory_used (kernel s) = 150 ∧
  recorded_total (heap s) = 50 ∧
  (deallocate_memory s 0%nat).1 = true ∧
  memory_used (kernel s') = 100 ∧
  recorded_total (heap s') = 0.
Proof. vm_compute. repeat split. Qed.

(** ** Kernel messages *)

Lemma send_message_appends k from_pid to_pid payload now q :
  message_queue k !! to_pid = Some q →
  (send_message k from_pid to_pid payload now).1 = true ∧
  message_queue (send_message k from_pid to_pid payload now).2
    = <[to_pid := q ++ [mkMsg from_pid to_pid payload now]]> (message_queue k).
Proof. intros Hq. unfold send_message. by rewrite Hq. Qed.

Lemma receive_message_pops k pid m q :
  message_queue k !! pid = Some (m :: q) →
  (receive_message k pid).1 = Some m ∧
  message_queue (receive_message k pid).2 = <[pid := q]> (message_queue k).
Proof. intros Hq. unfold receive_message. by rewrite Hq. Qed.

Lemma receive_message_empty k pid :
  message_queue k !! pid = Some [] → receive_message k pid = (None, k).
Proof. intros Hq. unfold receive_message. by rewrite Hq. Qed.

(** Draining an inbox returns what is pending, oldest first, then
    [None]. *)
Lemma receive_all_drains q : ∀ k pid,
  message_queue k !! pid = Some q →
  (receive_all (length q + 1) k pid).1 = (Some <$> q) ++ [None].
Proof.
  induction q as [|m q IH]; intros k pid Hq; simpl.
  - by rewrite (receive_message_empty k pid Hq).
  - destruct (receive_message_pops k pid m q Hq) as [R Q].
    destruct (receive_message k pid) as [r k1]. simpl in R, Q. subst r.
    assert (message_queue k1 !! pid = Some q) as H1.
    { rewrite Q. apply lookup_insert_eq. }
    specialize (IH k1 pid H1).
    destruct (receive_all (length q + 1) k1 pid) as [rs k2]. simpl in *.
    by rewrite IH.
Qed.

(** Whatever is pending for a receiver, messages sent afterwards come out
    after it and in the order of sending. *)
Lemma message_fifo_pending (k : Microkernel.t) (P : string) (q : list Msg)
    (a b c : PyValue) (fa fb fc : string) (ta tb tc : Z) :
  message_queue k !! P = Some q →
  let k1 := (send_message k fa P a ta).2 in
  let k2 := (send_message k1 fb P b tb).2 in
  let k3 := (send_message k2 fc P c tc).2 in
  (receive_all (length q + 4) k3 P).1
  = (Some <$> q)
    ++ [Some (mkMsg fa P a ta); Some (mkMsg fb P b tb);
        Some (mkMsg fc P c tc); None].
Proof.
  intros H0. simpl.
  destruct (send_message_appends k fa P a ta q H0) as [_ Q1].
  set (k1 := (send_message k fa P a ta).2) in *.
  assert (message_queue k1 !! P = Some (q ++ [mkMsg fa P a ta])) as H1.
  { rewrite Q1. apply lookup_insert_eq. }
  destruct (send_message_appends k1 fb P b tb _ H1) as [_ Q2].
  set (k2 := (send_message k1 fb P b tb).2) in *.
  assert (message_queue k2 !! P
          = Some ((q ++ [mkMsg fa P a ta]) ++ [mkMsg fb P b tb])) as H2.
  { rewrite Q2. apply lookup_insert_eq. }
  destruct (send_message_appends k2 fc P c tc _ H2) as [_ Q3].
  set (k3 := (send_message k2 fc P c tc).2) in *.
  assert (message_queue k3 !! P
          = Some (q ++ [mkMsg fa P a ta; mkMsg fb P b tb; mkMsg fc P c tc]))
    as H3.
  { rewrite Q3, lookup_insert_eq. f_equal. by rewrite <- !app_assoc. }
  pose proof (receive_all_drains _ k3 P H3) as Hd.
  rewrite length_app in Hd. simpl in Hd.
  replace (length q + 4)%nat with (length q + 3 + 1)%nat by lia.
  rewrite Hd, fmap_app, <- app_assoc. done.
Qed.

(** C4: for a receiver with a live, empty inbox, three messages sent in
    the order A, B, C are all accepted, the next three [receive_message]
    calls return the message built for A, then the one for B, then the one
    for C, and a fourth call returns [None]. *)
Theorem message_fifo (k : Microkernel.t) (P : string) (a b c : PyValue)
    (fa fb fc : string) (ta tb tc : Z) :
  message_queue k !! P = Some [] →
  let s1 := send_message k fa P a ta in
  let s2 := send_message s1.2 fb P b tb in
  let s3 := send_message s2.2 fc P c tc in
  let r1 := receive_message s3.2 P in
  let r2 := receive_message r1.2 P in
  let r3 := receive_message r2.2 P in
  let r4 := receive_message r3.2 P in
  s1.1 = true ∧ s2.1 = true ∧ s3.1 = true ∧
  r1.1 = Some (mkMsg fa P a ta) ∧
  r2.1 = Some (mkMsg fb P b tb) ∧
  r3.1 = Some (mkMsg fc P c tc) ∧
  r4.1 = None.
Proof.
  intros H0. simpl.
  destruct (send_message_appends k fa P a ta [] H0) as [E1 Q1].
  set (k1 := (send_message k fa P a ta).2) in *.
  assert (message_queue k1 !! P = Some [mkMsg fa P a ta]) as H1.
  { rewrite Q1. apply lookup_insert_eq. }
  destruct (send_message_appends k1 fb P b tb _ H1) as [E2 Q2].
  set (k2 := (send_message k1 fb P b tb).2) in *.
  assert (message_queue k2 !! P = Some [mkMsg fa P a ta; mkMsg fb P b tb]) as H2.
  { rewrite Q2. apply lookup_insert_eq. }
  destruct (send_message_appends k2 fc P c tc _ H2) as [E3 Q3].
  set (k3 := (send_message k2 fc P c tc).2) in *.
  assert (message_queue k3 !! P
          = Some [mkMsg fa P a ta; mkMsg fb P b tb; mkMsg fc P c tc]) as H3.
  { rewrite Q3. apply lookup_insert_eq. }
  destruct (receive_message_pops k3 P _ _ H3) as [R1 Q4].
  set (k4 := (receive_message k3 P).2) in *.
  assert (message_queue k4 !! P = Some [mkMsg fb P b tb; mkMsg fc P c tc]) as H4.
  { rewrite Q4. apply lookup_insert_eq. }
  destruct (receive_message_pops k4 P _ _ H4) as [R2 Q5].
  set (k5 := (receive_message k4 P).2) in *.
  assert (message_queue k5 !! P = Some [mkMsg fc P c tc]) as H5.
  { rewrite Q5. apply lookup_insert_eq. }
  destruct (receive_message_pops k5 P _ _ H5) as [R3 Q6].
  set (k6 := (receive_message k5 P).2) in *.
  assert (message_queue k6 !! P = Some []) as H6.
  { rewrite Q6. apply lookup_insert_eq. }
  rewrite (receive_message_empty k6 P H6).
  by repeat split.
Qed.

Lemma message_fifo_witness :
  message_queue (kernel one_receiver) !! "rx" = Some [] ∧
  (receive_message
     (send_message
        (send_message
           (send_message (kernel one_receiver) "x" "rx" (PyStr "A") 1).2
           "y" "rx" (PyStr "B") 2).2
        "z" "rx" (PyStr "C") 3).2
     "rx").1
  = Some (mkMsg "x" "rx" (PyStr "A") 1).
Proof.
  assert (message_queue (kernel one_receiver) !! "rx" = Some []) as H.
  { vm_compute. reflexivity. }
  split; [exact H|].
  exact (proj1 (proj2 (proj2 (proj2
    (message_fifo (kernel one_receiver) "rx" (PyStr "A") (PyStr "B") (PyStr "C")
                  "x" "y" "z" 1 2 3 H))))).
Defined.

(** C10: the kernel's [send_message] looks only at the receiver: whenever
    the receiver has a queue the call returns true and appends the message,
    whatever the sender id is, in particular when no process has that id.
    The IPC manager's [send_message] returns true exactly when both ids are
    in the process table, and otherwise returns false and leaves its own
    queues alone; so for a sender that does not exist the kernel call
    succeeds where the manager's call is rejected. *)
Theorem kernel_send_ignores_sender (k : Microkernel.t) (m : IPCManager.t)
    (from_pid to_pid : string) (payload : PyValue) (msg_type : string)
    (now : Z) (q : list Msg) :
  message_queue k !! to_pid = Some q →
  (send_message k from_pid to_pid payload now).1 = true ∧
  message_queue (send_message k from_pid to_pid payload now).2 !! to_pid
    = Some (q ++ [mkMsg from_pid to_pid payload now]) ∧
  ((IPCManager.send_message m k from_pid to_pid payload msg_type now).1 = true
   ↔ is_Some (get_process k from_pid) ∧ is_Some (get_process k to_pid)) ∧
  ((IPCManager.send_message m k from_pid to_pid payload msg_type now).1 = false
   → (IPCManager.send_message m k from_pid to_pid payload msg_type now).2 = m) ∧
  (get_process k from_pid = None →
   IPCManager.send_message m k from_pid to_pid payload msg_type now = (false, m)).
Proof.
  intros Hq. destruct (send_message_appends k from_pid to_pid payload now q Hq)
    as [E Q].
  split; [done|]. split; [rewrite Q; apply lookup_insert_eq|].
  unfold IPCManager.send_message.
  destruct (get_process k from_pid), (get_process k to_pid); simpl;
    repeat split; try done; try (intros [[? ?] [? ?]]; done);
    try (by eexists).
Qed.

Lemma kernel_send_ignores_sender_witness :
  message_queue (kernel one_receiver) !! "rx" = Some [] ∧
  get_process (kernel one_receiver) "ghost" = None ∧
  (send_message (kernel one_receiver) "ghost" "rx" (PyStr "hi") 5).1 = true ∧
  IPCManager.send_message IPCManager.init (kernel one_receiver)
     "ghost" "rx" (PyStr "hi") "data" 5 = (false, IPCManager.init).
Proof.
  assert (message_queue (kernel one_receiver) !! "rx" = Some []) as H.
  { vm_compute. reflexivity. }
  assert (get_process (kernel one_receiver) "ghost" = None) as Hg.
  { vm_compute. reflexivity. }
  pose proof (kernel_send_ignores_sender (kernel one_receiver) IPCManager.init
                "ghost" "rx" (PyStr "hi") "data" 5 [] H) as (E & _ & _ & _ & F).
  split; [exact H|]. split; [exact Hg|]. split; [exact E|]. exact (F Hg).
Defined.

(** ** Pipes *)

Lemma set_pipes_id (m : IPCManager.t) :
  IPCManager.set_pipes (IPCManager.pipes m) m = m.
Proof. by destruct m. Qed.

(** C5 (as stated): at a manager with one empty pipe, the read of an
    unknown pipe, the read by a process that is no reader and the read of
    the empty pipe under a timeout do not give pairwise different results:
    all three give [None]. *)
Lemma pipe_read_failures_coincide :
  let not_found := (IPCManager.read_pipe one_pipe "nopipe" "reader" (Some 5)).1 in
  let unauthorized := (IPCManager.read_pipe one_pipe "data" "intruder" (Some 5)).1 in
  let timed_out := (IPCManager.read_pipe one_pipe "data" "reader" (Some 5)).1 in
  ¬ (timed_out ≠ unauthorized ∧ timed_out ≠ not_found
     ∧ unauthorized ≠ not_found).
Proof. intros nf un tm [H _]. apply H. vm_compute. reflexivity. Qed.

(** C5 (amended): [read_pipe] answers an unknown pipe name, a caller that
    is not among the pipe's readers, and an empty queue whose non-negative
    timeout runs out with the same value, [None], and leaves the manager as
    it was; the returned value does not tell the three apart. *)
Theorem read_pipe_failures_return_none (m : IPCManager.t)
    (pipe_name process_id : string) (timeout : option Z) :
  IPCManager.pipes m !! pipe_name = None ∨
  (∃ p, IPCManager.pipes m !! pipe_name = Some p ∧
        process_id ∉ Pipe.readers p) ∨
  (∃ p tmo, IPCManager.pipes m !! pipe_name = Some p ∧
            process_id ∈ Pipe.readers p ∧ Pipe.queue p = [] ∧
            timeout = Some tmo ∧ 0 <= tmo) →
  IPCManager.read_pipe m pipe_name process_id timeout = (Returns PyNone, m).
Proof.
  unfold IPCManager.read_pipe, Pipe.read.
  intros [Hn | [(p & Hp & Hr) | (p & tmo & Hp & Hr & Hq & -> & Ht)]].
  - by rewrite Hn.
  - rewrite Hp, decide_False by done.
    by rewrite insert_id, set_pipes_id.
  - rewrite Hp, decide_True by done. unfold Pipe.queue_get. rewrite Hq.
    destruct (Z.ltb_spec tmo 0); [lia|].
    by rewrite insert_id, set_pipes_id.
Qed.

Lemma read_pipe_failures_return_none_witness :
  IPCManager.read_pipe one_pipe "nopipe" "reader" (Some 5)
    = (Returns PyNone, one_pipe) ∧
  IPCManager.read_pipe one_pipe "data" "intruder" (Some 5)
    = (Returns PyNone, one_pipe) ∧
  IPCManager.read_pipe one_pipe "data" "reader" (Some 5)
    = (Returns PyNone, one_pipe).
Proof.
  split; [|split].
  - apply read_pipe_failures_return_none. left. vm_compute. reflexivity.
  - apply read_pipe_failures_return_none. right. left.
    eexists. split; [vm_compute; reflexivity|].
    simpl. intros H%list_elem_of_singleton. discriminate H.
  - apply read_pipe_failures_return_none. right. right.
    eexists _, 5. split; [vm_compute; reflexivity|].
    simpl. split; [left|]. repeat split; lia.
Defined.

(** ** Shared memory *)

(** C6: a process that is not in the segment's authorization list gets
    [None] from [read] and false from [write], and the segment (its data
    included) is as before; a process that is in the list gets true from
    [write], and a [read] of the same key right after it returns the value
    written. *)
Theorem shared_memory_access (m : SharedMemory.t) (process_id key : string)
    (value : PyValue) :
  (process_id ∉ SharedMemory.authorized_processes m →
   SharedMemory.read m process_id key = (PyNone, m) ∧
   SharedMemory.write m process_id key value = (false, m)) ∧
  (process_id ∈ SharedMemory.authorized_processes m →
   (SharedMemory.write m process_id key value).1 = true ∧
   (SharedMemory.read (SharedMemory.write m process_id key value).2
                      process_id key).1 = value).
Proof.
  unfold SharedMemory.read, SharedMemory.write. split; intros H.
  - by rewrite !decide_False.
  - rewrite decide_True by done. simpl. rewrite decide_True by done. simpl.
    by rewrite lookup_insert_eq.
Qed.

Lemma shared_memory_access_witness :
  SharedMemory.write one_segment "mallory" "k" (PyInt 7) = (false, one_segment) ∧
  (SharedMemory.read (SharedMemory.write one_segment "alice" "k" (PyInt 7)).2
                     "alice" "k").1 = PyInt 7.
Proof.
  split.
  - apply (shared_memory_access one_segment "mallory" "k" (PyInt 7)).
    simpl. intros H%list_elem_of_singleton. discriminate H.
  - apply (shared_memory_access one_segment "alice" "k" (PyInt 7)).
    simpl. left.
Defined.

(** ** Semaphores *)

Lemma acquire_turn_spec s process_id timeout elapsed :
  match Semaphore.acquire_turn s process_id timeout elapsed with
  | (Semaphore.Acquired, s') =>
      0 < Semaphore.value s ∧ Semaphore.value s' = Semaphore.value s - 1
  | (Semaphore.TimedOut, s') =>
      Semaphore.value s <= 0 ∧ Semaphore.value s' = Semaphore.value s
  | (Semaphore.Parked, s') =>
      Semaphore.value s <= 0 ∧ Semaphore.value s' = Semaphore.value s ∧
      process_id ∈ Semaphore.waiting_processes s'
  end.
Proof.
  unfold Semaphore.acquire_turn.
  assert (process_id ∈ list_add process_id (Semaphore.waiting_processes s)) as Hin.
  { unfold list_add. case_decide; [done|]. apply elem_of_app. right. left. }
  destruct (Z.leb_spec (Semaphore.value s) 0); [|simpl; lia].
  destruct timeout as [tmo|]; [|done].
  destruct (tmo =? 0); [done|].
  destruct (tmo - elapsed <=? 0); done.
Qed.

Lemma semaphore_event_nonneg s e :
  0 <= Semaphore.value s → 0 <= Semaphore.value (Semaphore.apply_event s e).
Proof.
  intros H. destruct e as [p t el | p]; simpl; [|lia].
  pose proof (acquire_turn_spec s p t el) as Hs.
  destruct (Semaphore.acquire_turn s p t el) as [[] s']; simpl; lia.
Qed.

(** C8: a semaphore created with a non-negative initial value has a
    non-negative count after every sequence of [acquire] turns and
    [release] calls.  A turn of [acquire] lowers the count, by one, only
    when it is strictly positive; otherwise the count is unchanged and the
    caller either is in the waiter list and waits, or gives up with false.
    [release] raises the count by one. *)
Theorem semaphore_value_nonneg (name : string) (initial : Z)
    (evs : list Semaphore.event) :
  0 <= initial →
  0 <= Semaphore.value (Semaphore.run (Semaphore.init name initial) evs) ∧
  (∀ s process_id timeout elapsed,
     match Semaphore.acquire_turn s process_id timeout elapsed with
     | (Semaphore.Acquired, s') =>
         0 < Semaphore.value s ∧ Semaphore.value s' = Semaphore.value s - 1
     | (Semaphore.TimedOut, s') =>
         Semaphore.value s <= 0 ∧ Semaphore.value s' = Semaphore.value s
     | (Semaphore.Parked, s') =>
         Semaphore.value s <= 0 ∧ Semaphore.value s' = Semaphore.value s ∧
         process_id ∈ Semaphore.waiting_processes s'
     end) ∧
  (∀ s process_id,
     Semaphore.value (Semaphore.release s process_id) = Semaphore.value s + 1).
Proof.
  intros Hinit. split; [|split; [apply acquire_turn_spec | done]].
  assert (0 <= Semaphore.value (Semaphore.init name initial)) as H by done.
  revert H. generalize (Semaphore.init name initial).
  induction evs as [|e evs IH]; intros s Hs; simpl; [done|].
  apply IH. by apply semaphore_event_nonneg.
Qed.

Lemma semaphore_value_nonneg_witness :
  0 <= 1 ∧
  0 <= Semaphore.value
         (Semaphore.run (Semaphore.init "mutex" 1) semaphore_events).
Proof.
  assert (0 <= 1) as H by lia.
  split; [exact H|].
  exact (proj1 (semaphore_value_nonneg "mutex" 1 semaphore_events H)).
Defined.

(** ** Scheduling *)

Section sorting.
Context {A : Type} (le : A → A → bool) (R : relation A).
Hypothesis le_sound : ∀ x y, le x y = true → R x y.
Hypothesis le_total : ∀ x y, le x y = false → R y x.
Hypothesis R_trans : Transitive R.

Lemma sort_insert_perm x l : sort_insert le x l ≡ₚ x :: l.
Proof.
  induction l as [|y l IH]; simpl; [done|].
  destruct (le x y); [done|]. rewrite IH. apply Permutation_swap.
Qed.

Lemma list_sort_perm l : list_sort le l ≡ₚ l.
Proof.
  induction l as [|x l IH]; simpl; [done|].
  rewrite sort_insert_perm. by rewrite IH.
Qed.

Lemma sort_insert_sorted x l :
  StronglySorted R l → StronglySorted R (sort_insert le x l).
Proof.
  induction 1 as [|y l Hl IH Hy]; simpl.
  - repeat constructor.
  - destruct (le x y) eqn:E.
    + constructor; [by constructor|].
      constructor; [by apply le_sound|].
      eapply Forall_impl; [exact Hy|]. intros z Hz. simpl.
      etrans; [apply le_sound, E | done].
    + constructor; [done|].
      rewrite sort_insert_perm. constructor; [by apply le_total | done].
Qed.

Lemma list_sort_sorted l : StronglySorted R (list_sort le l).
Proof.
  induction l as [|x l IH]; simpl; [constructor|].
  by apply sort_insert_sorted.
Qed.

End sorting.

(** The sort is stable: elements that compare equal keep their order. *)
Lemma sort_insert_stable {A : Type} (le : A → A → bool) (P : A → Prop)
    `{!∀ x, Decision (P x)} x l :
  (∀ y, P x → P y → le x y = true) →
  filter P (sort_insert le x l) = filter P (x :: l).
Proof.
  intros HP. induction l as [|y l IH]; simpl; [done|].
  destruct (le x y) eqn:E; [done|].
  rewrite filter_cons, IH, !filter_cons.
  destruct (decide (P y)) as [Hy|Hy]; [|done].
  destruct (decide (P x)) as [Hx|Hx]; [|done].
  rewrite HP in E; done.
Qed.

Lemma list_sort_stable {A : Type} (le : A → A → bool) (P : A → Prop)
    `{!∀ x, Decision (P x)} l :
  (∀ x y, P x → P y → le x y = true) →
  filter P (list_sort le l) = filter P l.
Proof.
  intros HP. induction l as [|x l IH]; simpl; [done|].
  rewrite sort_insert_stable by (intros; by apply HP).
  by rewrite !filter_cons, IH.
Qed.

Lemma key_le_sound h p q : Scheduler.key_le h p q = true → runs_before h p q.
Proof.
  unfold Scheduler.key_le, Scheduler.tuple_le, Scheduler.sort_key, runs_before.
  simpl. intros H. apply orb_true_iff in H as [H|H].
  - apply Z.ltb_lt in H. lia.
  - apply andb_true_iff in H as [H1 H2].
    apply Z.eqb_eq in H1. apply Z.leb_le in H2. lia.
Qed.

Lemma key_le_total h p q : Scheduler.key_le h p q = false → runs_before h q p.
Proof.
  unfold Scheduler.key_le, Scheduler.tuple_le, Scheduler.sort_key, runs_before.
  simpl. intros H. apply orb_false_iff in H as [H1 H2].
  apply Z.ltb_ge in H1. apply andb_false_iff in H2 as [H2|H2].
  - apply Z.eqb_neq in H2. lia.
  - apply Z.leb_gt in H2. lia.
Qed.

#[local] Instance runs_before_trans h : Transitive (runs_before h).
Proof. unfold runs_before. intros p q r. lia. Qed.

Lemma list_index_elem x l :
  x ∈ l → ∃ i, list_index x l = Some i ∧ l !! i = Some x.
Proof.
  induction l as [|y l IH]; simpl; [by intros ?%elem_of_nil|].
  destruct (decide (x = y)) as [->|Hne].
  - intros _. by exists 0%nat.
  - intros [?|Hin]%elem_of_cons; [done|].
    destruct (IH Hin) as (i & Hi & Hl). exists (S i). by rewrite Hi.
Qed.

Lemma list_index_not_elem x l : x ∉ l → list_index x l = None.
Proof.
  induction l as [|y l IH]; simpl; [done|].
  intros [Hne Hin]%not_elem_of_cons. rewrite decide_False by done.
  by rewrite IH.
Qed.

(** C9 (amended): for a non-empty ready list the selection orders the ready
    processes by priority descending, then creation time ascending, equal
    keys staying in the order of the list.  If
    there is a current process, it is itself in the ready list and more
    than one ready process has its priority, the result is the process one
    place after the current one, cyclically, among the ready processes of
    that priority taken in sorted order.  In every other case, also when
    the current process is not in the ready list, the result is the first
    entry of the sorted ready list. *)
Theorem select_next_process_round_robin (self : Scheduler.t)
    (h : list Process.t) (ready : list loc) :
  ready ≠ [] →
  let sorted := list_sort (Scheduler.key_le h) ready in
  let result := Scheduler._select_next_process self h ready in
  sorted ≡ₚ ready ∧
  StronglySorted (runs_before h) sorted ∧
  (∀ key, filter (fun p => Scheduler.sort_key h p = key) sorted
          = filter (fun p => Scheduler.sort_key h p = key) ready) ∧
  match Scheduler.current_process self with
  | Some cur =>
      let band :=
        filter (fun p => Scheduler.priority_of h p = Scheduler.priority_of h cur)
               sorted in
      if decide (cur ∈ ready ∧ (1 < length band)%nat) then
        ∃ i next,
          list_index cur band = Some i ∧ band !! i = Some cur ∧
          band !! ((i + 1) `mod` length band)%nat = Some next ∧
          result = Some next
      else result = head sorted
  | None => result = head sorted
  end.
Proof.
  intros Hne sorted result.
  assert (sorted ≡ₚ ready) as Hperm by apply list_sort_perm.
  split; [done|]. split.
  { apply (list_sort_sorted _ _ (key_le_sound h) (key_le_total h) _). }
  split.
  { intros key. apply list_sort_stable. intros x y Hx Hy.
    unfold Scheduler.key_le, Scheduler.tuple_le. rewrite Hx, Hy.
    rewrite Z.eqb_refl, Z.leb_refl. apply orb_true_r. }
  unfold result, Scheduler._select_next_process.
  destruct ready as [|r0 ready']; [done|]. fold sorted.
  destruct (Scheduler.current_process self) as [cur|]; [|done].
  simpl. set (band := filter _ sorted).
  destruct (decide (cur ∈ sorted)) as [Hin|Hin].
  - destruct (Nat.ltb_spec 1 (length band)) as [Hlen|Hlen].
    + rewrite decide_True by (by rewrite <- Hperm).
      assert (cur ∈ band) as Hb by (by apply list_elem_of_filter).
      destruct (list_index_elem _ _ Hb) as (i & Hi & Hl).
      assert ((i + 1) `mod` length band < length band)%nat as Hlt.
      { apply Nat.mod_upper_bound. lia. }
      destruct (lookup_lt_is_Some_2 _ _ Hlt) as [next Hnext].
      exists i, next. by rewrite Hi.
    + rewrite decide_False by lia. done.
  - rewrite decide_False; [done|]. rewrite <- Hperm. by intros [? _].
Qed.

Lemma select_next_process_round_robin_witness :
  Scheduler._get_ready_processes three_peers ≠ [] ∧
  Scheduler._select_next_process scheduler_on_b (heap three_peers)
    (Scheduler._get_ready_processes three_peers) = Some 2%nat.
Proof.
  assert (Scheduler._get_ready_processes three_peers ≠ []) as H.
  { vm_compute. discriminate. }
  split; [exact H|].
  pose proof (select_next_process_round_robin scheduler_on_b
                (heap three_peers) _ H) as (_ & _ & _ & Hsel).
  simpl in Hsel. destruct Hsel as (i & next & Hi & _ & Hnext & Hres).
  injection Hi as <-. vm_compute in Hnext. injection Hnext as <-.
  exact Hres.
Defined.

(** C9 (as stated): the scheduler last ran a process of priority 1 that
    has been terminated; one process of priority 5 and two of priority 1
    are ready.  More than one ready process shares the current process's
    priority, yet the selection is the priority-5 process, which is not in
    that band. *)
Lemma round_robin_ignores_absent_current :
  ¬ round_robin_as_specified scheduler_on_x (heap after_current_died)
      (Scheduler._get_ready_processes after_current_died).
Proof.
  unfold round_robin_as_specified. vm_compute.
  intros (next & Hr & Hin & _). injection Hr as <-.
  apply elem_of_cons in Hin as [Hin|Hin]; [discriminate|].
  apply elem_of_cons in Hin as [Hin|Hin]; [discriminate|].
  by apply elem_of_nil in Hin.
Qed.

(** * Further properties of the kernel *)

Lemma odict_del_set_fresh {V : Type} (d : list (string * V)) k v :
  odict.get k d = None → odict.del k (odict.set k v d) = d.
Proof.
  induction d as [|[k1 v1] d IH]; simpl.
  - intros _. by rewrite decide_True.
  - destruct (decide (k = k1)) as [->|Hne]; [done|]. intros Hg. simpl.
    rewrite decide_False by done. by rewrite IH.
Qed.

Lemma odict_set_fresh {V : Type} (d : list (string * V)) k v :
  odict.get k d = None → odict.set k v d = d ++ [(k, v)].
Proof.
  induction d as [|[k1 v1] d IH]; simpl; [done|].
  destruct (decide (k = k1)); [done|]. intros Hg. by rewrite IH.
Qed.

Lemma odict_get_keys {V : Type} (d : list (string * V)) k :
  is_Some (odict.get k d) ↔ k ∈ odict.keys d.
Proof.
  unfold odict.keys. induction d as [|[k1 v1] d IH]; simpl.
  - split; [by intros [? ?] | by intros ?%elem_of_nil].
  - destruct (decide (k = k1)) as [->|Hne].
    + split; [intros _; left | by eexists].
    + rewrite IH. split; [by right|].
      by intros [?|?]%elem_of_cons.
Qed.

Lemma alter_last {A : Type} (f : A → A) (l : list A) (x : A) :
  alter f (length l) (l ++ [x]) = l ++ [f x].
Proof.
  induction l as [|y l IH]; simpl; [done|].
  unfold alter in IH. by rewrite IH.
Qed.

(** What a successful [create_process] leaves behind. *)
Lemma create_process_ok s pid name has_target priority now :
  memory_used (kernel s) + 1024 <= memory_pool (kernel s) →
  create_process s pid name has_target priority now =
  (Returns pid,
   {| heap := heap s ++ [Process.mk pid name priority READY 1024 now has_target];
      kernel :=
        {| processes := odict.set pid (length (heap s)) (processes (kernel s));
           memory_pool := memory_pool (kernel s);
           memory_used := memory_used (kernel s) + 1024;
           message_queue := <[pid := []]> (message_queue (kernel s));
           stats := incr_processes_created (stats (kernel s)) |} |}).
Proof.
  intros Hfree. unfold create_process, new_process, allocate_memory. simpl.
  destruct (Z.gtb_spec (memory_used (kernel s) + 1024) (memory_pool (kernel s)));
    [lia|]. simpl. f_equal. f_equal.
  rewrite alter_last. destruct has_target; simpl; [|done].
  by rewrite alter_last.
Qed.

(** A failed [create_process] leaves the kernel record as it is. *)
Lemma create_process_out_of_memory_kernel s pid name has_target priority now :
  memory_pool (kernel s) < memory_used (kernel s) + 1024 →
  kernel (create_process s pid name has_target priority now).2 = kernel s ∧
  (create_process s pid name has_target priority now).1
  = Raises (Exception (no_memory_msg name)).
Proof.
  intros Hfull. unfold create_process, new_process, allocate_memory. simpl.
  destruct (Z.gtb_spec (memory_used (kernel s) + 1024) (memory_pool (kernel s)));
    [done|lia].
Qed.

(** X1: With at least 1024 bytes free, [create_process] returns the id it was
    given; the id then names a new process object that is [READY], records
    1024 bytes and carries the given name, priority and clock reading; the
    id has an empty message queue; the used counter and the
    processes-created statistic have grown by 1024 and by one; the objects,
    table entries and queues of other ids are as before. *)
Theorem create_process_registers (s : State) (pid name : string)
    (has_target : bool) (priority now : Z) :
  memory_used (kernel s) + 1024 <= memory_pool (kernel s) →
  ∃ s',
    create_process s pid name has_target priority now = (Returns pid, s') ∧
    get_process (kernel s') pid = Some (length (heap s)) ∧
    heap s' !! length (heap s)
      = Some (Process.mk pid name priority READY 1024 now has_target) ∧
    message_queue (kernel s') !! pid = Some [] ∧
    memory_used (kernel s') = memory_used (kernel s) + 1024 ∧
    processes_created (stats (kernel s'))
      = processes_created (stats (kernel s)) + 1 ∧
    (∀ l p, heap s !! l = Some p → heap s' !! l = Some p) ∧
    (∀ pid', pid' ≠ pid →
       get_process (kernel s') pid' = get_process (kernel s) pid' ∧
       message_queue (kernel s') !! pid' = message_queue (kernel s) !! pid').
Proof.
  intros Hfree. eexists. split; [by apply create_process_ok|]. simpl.
  unfold get_process. simpl.
  split; [apply odict_get_set_eq|].
  split; [by rewrite lookup_app_r, Nat.sub_diag|].
  split; [apply lookup_insert_eq|].
  split; [done|]. split; [done|].
  split; [intros l p Hl; by apply lookup_app_l_Some|].
  intros pid' Hne. split.
  - by apply odict_get_set_ne.
  - by apply lookup_insert_ne.
Qed.

Lemma create_process_registers_witness :
  memory_used (kernel init_state) + 1024 <= memory_pool (kernel init_state) ∧
  ∃ s',
    create_process init_state "a1" "init" true 3 10 = (Returns "a1", s') ∧
    memory_used (kernel s') = 1024.
Proof.
  assert (memory_used (kernel init_state) + 1024
          <= memory_pool (kernel init_state)) as H by (vm_compute; discriminate).
  split; [exact H|].
  destruct (create_process_registers init_state "a1" "init" true 3 10 H)
    as (s' & Hc & _ & _ & _ & Hm & _).
  exists s'. split; [exact Hc|]. exact Hm.
Defined.

(** X2: Creating a process under an id that is neither in the table nor has a
    queue, and terminating it right away, gives back the process table, the
    message queues and the used counter of before; both statistics have
    gone up by one. *)
Theorem create_then_terminate (s : State) (pid name : string)
    (has_target : bool) (priority now : Z) :
  memory_used (kernel s) + 1024 <= memory_pool (kernel s) →
  get_process (kernel s) pid = None →
  message_queue (kernel s) !! pid = None →
  let s1 := (create_process s pid name has_target priority now).2 in
  let r := terminate_process s1 pid in
  r.1 = true ∧
  processes (kernel r.2) = processes (kernel s) ∧
  message_queue (kernel r.2) = message_queue (kernel s) ∧
  memory_used (kernel r.2) = memory_used (kernel s) ∧
  memory_pool (kernel r.2) = memory_pool (kernel s) ∧
  processes_created (stats (kernel r.2))
    = processes_created (stats (kernel s)) + 1 ∧
  processes_terminated (stats (kernel r.2))
    = processes_terminated (stats (kernel s)) + 1.
Proof.
  intros Hfree Hp Hq. unfold get_process in Hp.
  rewrite (create_process_ok s pid name has_target priority now Hfree). simpl.
  unfold terminate_process. simpl. rewrite odict_get_set_eq.
  unfold deallocate_memory. simpl.
  rewrite list_lookup_alter_eq, lookup_app_r, Nat.sub_diag by lia. simpl.
  repeat split; simpl.
  - by apply odict_del_set_fresh.
  - by apply delete_insert_id.
  - lia.
Qed.

Lemma create_then_terminate_witness :
  (terminate_process
     (create_process init_state "a1" "init" false 1 10).2 "a1").1 = true ∧
  memory_used
    (kernel (terminate_process
               (create_process init_state "a1" "init" false 1 10).2 "a1").2)
  = memory_used (kernel init_state).
Proof.
  assert (memory_used (kernel init_state) + 1024
          <= memory_pool (kernel init_state)) as H by (vm_compute; discriminate).
  pose proof (create_then_terminate init_state "a1" "init" false 1 10 H
                eq_refl (lookup_empty _)) as (Hr & _ & _ & Hm & _).
  split; [exact Hr | exact Hm].
Defined.

(** ** The table and the queues go together *)

Lemma inbox_inv_same (k k' : Microkernel.t) :
  processes k' = processes k → message_queue k' = message_queue k →
  inbox_inv k → inbox_inv k'.
Proof.
  intros Hp Hq Hk pid. unfold get_process. rewrite Hp, Hq. apply Hk.
Qed.

Lemma inbox_inv_create s pid name has_target priority now :
  inbox_inv (kernel s) →
  inbox_inv (kernel (create_process s pid name has_target priority now).2).
Proof.
  intros Hk.
  destruct (Z.le_gt_cases (memory_used (kernel s) + 1024) (memory_pool (kernel s)))
    as [Hfree|Hfull].
  - rewrite (create_process_ok s pid name has_target priority now Hfree).
    intros pid'. unfold get_process. simpl.
    destruct (decide (pid = pid')) as [->|Hne].
    + rewrite odict_get_set_eq, lookup_insert_eq. split; by eexists.
    + rewrite odict_get_set_ne, lookup_insert_ne by done. apply Hk.
  - destruct (create_process_out_of_memory_kernel s pid name has_target
                priority now) as [Hsame _]; [lia|]. by rewrite Hsame.
Qed.

Lemma inbox_inv_terminate s pid :
  inbox_inv (kernel s) → inbox_inv (kernel (terminate_process s pid).2).
Proof.
  intros Hk. unfold terminate_process.
  destruct (odict.get pid (processes (kernel s))) as [process|]; [|done].
  set (s1 := {| heap := alter _ process (heap s); kernel := kernel s |}).
  destruct (deallocate_memory_frame s1 process) as (Hp & Hq & _ & _).
  destruct (deallocate_memory s1 process) as [b s2]. simpl in Hp, Hq.
  intros pid'. unfold get_process. simpl. rewrite Hp, Hq.
  destruct (decide (pid = pid')) as [->|Hne].
  - rewrite odict_get_del_eq, lookup_delete_eq. split; by intros [? ?].
  - rewrite odict_get_del_ne, lookup_delete_ne by done. apply Hk.
Qed.

Lemma inbox_inv_send k from_pid to_pid message now :
  inbox_inv k → inbox_inv (send_message k from_pid to_pid message now).2.
Proof.
  intros Hk. unfold send_message.
  destruct (message_queue k !! to_pid) as [q|] eqn:Hq; [|done].
  intros pid. unfold get_process. simpl.
  destruct (decide (to_pid = pid)) as [->|Hne].
  - rewrite lookup_insert_eq. rewrite (Hk pid), Hq. split; by eexists.
  - rewrite lookup_insert_ne by done. apply Hk.
Qed.

Lemma inbox_inv_receive k pid :
  inbox_inv k → inbox_inv (receive_message k pid).2.
Proof.
  intros Hk. unfold receive_message.
  destruct (message_queue k !! pid) as [[|m q]|] eqn:Hq; try done.
  intros pid'. unfold get_process. simpl.
  destruct (decide (pid = pid')) as [->|Hne].
  - rewrite lookup_insert_eq. rewrite (Hk pid'), Hq. split; by eexists.
  - rewrite lookup_insert_ne by done. apply Hk.
Qed.

Lemma inbox_inv_call_step s c :
  inbox_inv (kernel s) → inbox_inv (kernel (call_step s c)).
Proof.
  intros Hk. destruct c as [[]| |]; simpl.
  - done.
  - destruct (allocate_memory_frame s process size) as (Hp & Hq & _).
    by apply (inbox_inv_same (kernel s)).
  - destruct (deallocate_memory_frame s process) as (Hp & Hq & _).
    by apply (inbox_inv_same (kernel s)).
  - by apply inbox_inv_create.
  - by apply inbox_inv_terminate.
  - by apply inbox_inv_send.
  - by apply inbox_inv_receive.
Qed.

Lemma inbox_inv_call_run cs : ∀ s,
  inbox_inv (kernel s) → inbox_inv (kernel (call_run s cs)).
Proof.
  induction cs as [|c cs IH]; intros s Hs; simpl; [done|].
  apply IH. by apply inbox_inv_call_step.
Qed.

Lemma inbox_inv_init : inbox_inv (kernel init_state).
Proof.
  intros pid. unfold get_process. simpl. rewrite lookup_empty.
  split; by intros [? ?].
Qed.

(** X3: after any sequence of client calls on a fresh kernel (process
    construction, memory grants and returns, process creation and
    termination, message sends and receives) an id is in the process table
    exactly when it has a message queue: the inbox lives as long as the
    table entry. *)
Theorem inbox_lives_with_process (cs : list Call) (pid : string) :
  is_Some (get_process (kernel (call_run init_state cs)) pid)
  ↔ is_Some (message_queue (kernel (call_run init_state cs)) !! pid).
Proof. apply (inbox_inv_call_run cs init_state inbox_inv_init). Qed.

(** X4: [has_messages] answers true exactly when the next
    [receive_message] for that id hands out a message, which is then the
    oldest one pending and is taken off the queue; when it answers false,
    [receive_message] returns [None] and leaves the kernel as it is. *)
Theorem has_messages_iff_receive (k : Microkernel.t) (pid : string) :
  if has_messages k pid then
    ∃ m q, message_queue k !! pid = Some (m :: q) ∧
           (receive_message k pid).1 = Some m ∧
           message_queue (receive_message k pid).2 !! pid = Some q ∧
           has_messages (receive_message k pid).2 pid = bool_decide (q ≠ [])
  else receive_message k pid = (None, k).
Proof.
  unfold has_messages, receive_message.
  destruct (message_queue k !! pid) as [[|m q]|] eqn:Hq; simpl; try done.
  exists m, q. rewrite lookup_insert_eq. repeat split. by destruct q.
Qed.

(** X5: once [terminate_process] has removed a process, messages that were
    waiting for it are gone and it can no longer be written to:
    [send_message] to its id returns false without touching the kernel or
    the messages-sent count, [receive_message] returns [None] and
    [has_messages] is false. *)
Theorem terminated_process_has_no_inbox (s : State) (pid from_pid : string)
    (message : PyValue) (now : Z) :
  is_Some (get_process (kernel s) pid) →
  let k' := kernel (terminate_process s pid).2 in
  (terminate_process s pid).1 = true ∧
  send_message k' from_pid pid message now = (false, k') ∧
  receive_message k' pid = (None, k') ∧
  has_messages k' pid = false.
Proof.
  intros [process Hp]. unfold get_process in Hp. unfold terminate_process.
  rewrite Hp.
  set (s1 := {| heap := alter _ process (heap s); kernel := kernel s |}).
  destruct (deallocate_memory s1 process) as [b s2]. simpl.
  unfold send_message, receive_message, has_messages. simpl.
  by rewrite lookup_delete_eq.
Qed.

Lemma terminated_process_has_no_inbox_witness :
  is_Some (get_process (kernel (sys_state busy_system)) "b2") ∧
  has_messages (kernel (sys_state busy_system)) "b2" = true ∧
  has_messages (kernel (terminate_process (sys_state busy_system) "b2").2) "b2"
  = false.
Proof.
  assert (is_Some (get_process (kernel (sys_state busy_system)) "b2")) as H.
  { vm_compute. by eexists. }
  split; [exact H|]. split; [vm_compute; reflexivity|].
  exact (proj2 (proj2 (proj2
    (terminated_process_has_no_inbox (sys_state busy_system) "b2" "a1"
       PyNone 0 H)))).
Defined.

(** ** Shutting down *)

Lemma terminate_all_empties pids : ∀ s,
  (∀ pid, pid ∈ odict.keys (processes (kernel s)) → pid ∈ pids) →
  processes (kernel (foldl (fun s pid => (terminate_process s pid).2) s pids))
  = [].
Proof.
  induction pids as [|pid pids IH]; intros s Hs; simpl.
  - destruct (processes (kernel s)) as [|[k v] d]; [done|].
    exfalso. eapply elem_of_nil, (Hs k). left.
  - apply IH. intros pid' Hin.
    assert (pid' ∈ odict.keys (processes (kernel s)) ∧ pid' ≠ pid) as [Hin' Hne].
    { unfold terminate_process in Hin.
      destruct (odict.get pid (processes (kernel s))) as [process|] eqn:Hg.
      - set (s1 := {| heap := alter _ process (heap s); kernel := kernel s |}) in *.
        destruct (deallocate_memory_frame s1 process) as (Hp & _).
        destruct (deallocate_memory s1 process) as [b s2]. simpl in Hp, Hin.
        rewrite Hp in Hin. apply odict_get_keys in Hin.
        destruct (decide (pid = pid')) as [->|Hne].
        + rewrite odict_get_del_eq in Hin. by destruct Hin.
        + rewrite odict_get_del_ne in Hin by done.
          split; [by apply odict_get_keys | done].
      - simpl in Hin. split; [done|]. intros ->.
        apply odict_get_keys in Hin. rewrite Hg in Hin. by destruct Hin. }
    specialize (Hs _ Hin'). by apply elem_of_cons in Hs as [?|?].
Qed.

Lemma terminate_all_inbox_inv pids : ∀ s,
  inbox_inv (kernel s) →
  inbox_inv (kernel (foldl (fun s pid => (terminate_process s pid).2) s pids)).
Proof.
  induction pids as [|pid pids IH]; intros s Hs; simpl; [done|].
  apply IH. by apply inbox_inv_terminate.
Qed.

(** X6: [stop] leaves no process behind: whatever the kernel held (here
    after any sequence of client calls on a fresh kernel), afterwards
    [list_processes] is empty, no id has a message queue, so every later
    [send_message] fails, the kernel is marked as not running, and the
    registered services are kept. *)
Theorem stop_terminates_everything (y : System) (cs : list Call) :
  sys_state y = call_run init_state cs →
  list_processes (sys_state (stop y)) = [] ∧
  message_queue (kernel (sys_state (stop y))) = ∅ ∧
  (∀ from_pid to_pid message now,
     (send_message (kernel (sys_state (stop y))) from_pid to_pid message now).1
     = false) ∧
  running (stop y) = false ∧
  services (stop y) = services y.
Proof.
  intros Hy. unfold stop. simpl.
  set (s' := foldl _ (sys_state y) _).
  assert (processes (kernel s') = []) as Hp.
  { by apply terminate_all_empties. }
  assert (inbox_inv (kernel s')) as Hinv.
  { apply terminate_all_inbox_inv. rewrite Hy.
    apply inbox_inv_call_run, inbox_inv_init. }
  assert (message_queue (kernel s') = ∅) as Hq.
  { apply map_empty. intros pid. apply eq_None_not_Some.
    rewrite <- (Hinv pid). unfold get_process. rewrite Hp. by intros [? ?]. }
  unfold list_processes. rewrite Hp, Hq. repeat split.
  intros. unfold send_message. rewrite Hq. by rewrite lookup_empty.
Qed.

Lemma stop_terminates_everything_witness :
  list_processes (sys_state busy_system) = [0%nat; 1%nat] ∧
  list_processes (sys_state (stop busy_system)) = [].
Proof.
  split; [vm_compute; reflexivity|].
  exact (proj1 (stop_terminates_everything busy_system busy_calls eq_refl)).
Defined.

(** ** Memory held through the table *)

Lemma odict_del_absent {V : Type} (d : list (string * V)) k :
  k ∉ odict.keys d → odict.del k d = d.
Proof.
  unfold odict.keys. induction d as [|[k1 v1] d IH]; simpl; [done|].
  intros [Hne Hin]%not_elem_of_cons. rewrite decide_False by done.
  by rewrite IH.
Qed.

Lemma odict_keys_del {V : Type} (d : list (string * V)) k x :
  x ∈ odict.keys (odict.del k d) → x ∈ odict.keys d.
Proof.
  unfold odict.keys. induction d as [|[k1 v1] d IH]; simpl; [done|].
  destruct (decide (k = k1)); simpl.
  - intros H. right. by apply IH.
  - intros [->|H]%elem_of_cons; [left | right; by apply IH].
Qed.

Lemma odict_NoDup_keys_del {V : Type} (d : list (string * V)) k :
  NoDup (odict.keys d) → NoDup (odict.keys (odict.del k d)).
Proof.
  induction d as [|[k1 v1] d IH]; simpl; [done|].
  intros [Hn Hd]%NoDup_cons.
  destruct (decide (k = k1)); simpl; [by apply IH|].
  apply NoDup_cons. split; [|by apply IH].
  intros H. apply Hn. by eapply odict_keys_del.
Qed.

Lemma table_total_app h d1 d2 :
  table_total h (d1 ++ d2) = table_total h d1 + table_total h d2.
Proof.
  unfold table_total. induction d1 as [|kv d1 IH]; simpl; [lia|].
  rewrite IH. lia.
Qed.

Lemma table_total_ext h h' d :
  (∀ l, l ∈ odict.values d → h' !! l = h !! l) →
  table_total h' d = table_total h d.
Proof.
  unfold table_total, odict.values.
  induction d as [|[k v] d IH]; simpl; [done|]. intros H.
  rewrite IH by (intros l Hl; apply H; by right).
  rewrite (H v) by left. done.
Qed.

Lemma table_total_del h d pid l :
  NoDup (odict.keys d) → odict.get pid d = Some l →
  table_total h (odict.del pid d)
  = table_total h d - from_option Process.memory_allocated 0 (h !! l).
Proof.
  induction d as [|[k1 v1] d IH]; simpl; [done|].
  intros [Hn Hd]%NoDup_cons Hg.
  destruct (decide (pid = k1)) as [->|Hne].
  - injection Hg as ->. rewrite (odict_del_absent d k1) by done.
    unfold table_total. simpl. lia.
  - specialize (IH Hd Hg). unfold table_total in *. simpl. lia.
Qed.

Lemma table_ledger_init : table_ledger init_state.
Proof.
  split; [constructor|]. split; [apply table_inv_init|].
  split; [apply mem_inv_init | done].
Qed.

Lemma table_ledger_new s p :
  Process.memory_allocated p = 0 →
  table_ledger s → table_ledger (new_process p s).2.
Proof.
  intros Hp (Hk & Ht & Hm & Hu).
  split; [done|]. split; [by apply table_inv_new|].
  split; [by apply mem_inv_new|]. simpl. rewrite Hu. symmetry.
  apply table_total_ext. intros l Hl. apply lookup_app_l.
  destruct Ht as [_ Hv]. rewrite Forall_forall in Hv. by apply Hv.
Qed.

Lemma table_ledger_create s pid name has_target priority now :
  get_process (kernel s) pid = None →
  table_ledger s →
  table_ledger (create_process s pid name has_target priority now).2.
Proof.
  intros Hfresh Hs.
  pose proof Hs as (Hk & Ht & Hm & Hu).
  split; [|split; [by apply table_inv_create|split; [by apply mem_inv_create|]]].
  - destruct (Z.le_gt_cases (memory_used (kernel s) + 1024)
                (memory_pool (kernel s))) as [Hfree|Hfull].
    + rewrite (create_process_ok s pid name has_target priority now Hfree).
      simpl. rewrite odict_set_fresh by done.
      unfold odict.keys. rewrite fmap_app. simpl.
      apply NoDup_app. split; [done|]. split; [|apply NoDup_singleton].
      intros x Hx ->%list_elem_of_singleton.
      apply odict_get_keys in Hx. unfold get_process in Hfresh.
      rewrite Hfresh in Hx. by destruct Hx.
    + destruct (create_process_out_of_memory_kernel s pid name has_target
                  priority now) as [Hsame _]; [lia|]. by rewrite Hsame.
  - assert (∀ x, table_total (heap s ++ [x]) (processes (kernel s))
                 = table_total (heap s) (processes (kernel s))) as Hold.
    { intros x. apply table_total_ext. intros l Hl. apply lookup_app_l.
      destruct Ht as [_ Hv]. rewrite Forall_forall in Hv. by apply Hv. }
    destruct (Z.le_gt_cases (memory_used (kernel s) + 1024)
                (memory_pool (kernel s))) as [Hfree|Hfull].
    + rewrite (create_process_ok s pid name has_target priority now Hfree).
      simpl. rewrite odict_set_fresh by done.
      rewrite table_total_app, Hold, Hu.
      change (table_total ?h [(?k, ?l)])
        with (from_option Process.memory_allocated 0 (h !! l) + 0).
      rewrite lookup_app_r, Nat.sub_diag by lia. simpl. lia.
    + unfold create_process, new_process, allocate_memory. simpl.
      destruct (Z.gtb_spec (memory_used (kernel s) + 1024)
                  (memory_pool (kernel s))); [|lia].
      simpl. by rewrite Hold.
Qed.

Lemma table_ledger_terminate s pid :
  table_ledger s → table_ledger (terminate_process s pid).2.
Proof.
  intros Hs. pose proof Hs as (Hk & Ht & Hm & Hu).
  split; [|split; [by apply table_inv_terminate|
                   split; [by apply mem_inv_terminate|]]];
    unfold terminate_process;
    destruct (odict.get pid (processes (kernel s))) as [process|] eqn:Hg;
    try done.
  - set (s1 := {| heap := alter _ process (heap s); kernel := kernel s |}).
    destruct (deallocate_memory_frame s1 process) as (Hp & _).
    destruct (deallocate_memory s1 process) as [b s2]. simpl in *.
    rewrite Hp. by apply odict_NoDup_keys_del.
  - destruct Ht as [Hnv Hv].
    assert (process < length (heap s))%nat as Hlt.
    { rewrite Forall_forall in Hv. apply Hv. by eapply odict_get_values. }
    destruct (lookup_lt_is_Some_2 _ _ Hlt) as [p Hp].
    destruct Hm as (HF & _ & _).
    rewrite Forall_lookup in HF. specialize (HF _ _ Hp). simpl in HF.
    pose proof (odict_value_gone _ _ _ Hg Hnv) as Hgone.
    pose proof (table_total_del (heap s) _ _ _ Hk Hg) as Hdel.
    rewrite Hp in Hdel. simpl in Hdel.
    unfold deallocate_memory. simpl. rewrite list_lookup_alter_eq, Hp. simpl.
    destruct (Z.gtb_spec (Process.memory_allocated p) 0); simpl.
    + rewrite (table_total_ext (heap s)).
      * lia.
      * intros l Hl. rewrite !list_lookup_alter_ne; [done| |];
          intros ->; done.
    + rewrite (table_total_ext (heap s)).
      * lia.
      * intros l Hl. rewrite list_lookup_alter_ne; [done|]. intros ->; done.
Qed.

Lemma table_ledger_kernel s k :
  processes k = processes (kernel s) → memory_used k = memory_used (kernel s) →
  memory_pool k = memory_pool (kernel s) →
  table_ledger s → table_ledger (with_kernel s k).
Proof.
  intros Hp Hu Hpool (Hk & [Hn Hv] & (HF & Hle & Hcap) & Hl).
  unfold table_ledger, table_inv, mem_inv, with_kernel. simpl.
  rewrite Hp, Hu, Hpool. done.
Qed.

Lemma send_message_frame k from_pid to_pid message now :
  processes (send_message k from_pid to_pid message now).2 = processes k ∧
  memory_used (send_message k from_pid to_pid message now).2 = memory_used k ∧
  memory_pool (send_message k from_pid to_pid message now).2 = memory_pool k.
Proof. unfold send_message. by destruct (message_queue k !! to_pid). Qed.

Lemma receive_message_frame k pid :
  processes (receive_message k pid).2 = processes k ∧
  memory_used (receive_message k pid).2 = memory_used k ∧
  memory_pool (receive_message k pid).2 = memory_pool k ∧
  stats (receive_message k pid).2 = stats k.
Proof.
  unfold receive_message. by destruct (message_queue k !! pid) as [[|m q]|].
Qed.

Lemma table_ledger_call_step s c :
  accounted_call s c → table_ledger s → table_ledger (call_step s c).
Proof.
  destruct c as [[]| |]; simpl; intros Hc Hs; try done.
  - by apply table_ledger_new.
  - by apply table_ledger_create.
  - by apply table_ledger_terminate.
  - destruct (send_message_frame (kernel s) from_pid to_pid message now)
      as (? & ? & ?). by apply table_ledger_kernel.
  - destruct (receive_message_frame (kernel s) pid) as (? & ? & ? & _).
    by apply table_ledger_kernel.
Qed.

Lemma table_ledger_call_run cs : ∀ s,
  accounted_run s cs → table_ledger s → table_ledger (call_run s cs).
Proof.
  induction cs as [|c cs IH]; intros s Hc Hs; simpl; [done|].
  destruct Hc as [Hc Hcs]. apply IH; [done|]. by apply table_ledger_call_step.
Qed.

Lemma terminate_all_table_ledger pids : ∀ s,
  table_ledger s →
  table_ledger (foldl (fun s pid => (terminate_process s pid).2) s pids).
Proof.
  induction pids as [|pid pids IH]; intros s Hs; simpl; [done|].
  apply IH. by apply table_ledger_terminate.
Qed.

(** X7: as long as every process got its memory through [create_process]
    under an id not in use, and none was granted or returned directly, the
    used counter is the sum of the allocations recorded on the processes
    in the table, and [stop] brings it back to zero. *)
Theorem stop_returns_all_memory (y : System) (cs : list Call) :
  accounted_run init_state cs →
  sys_state y = call_run init_state cs →
  memory_used (kernel (sys_state y))
    = table_total (heap (sys_state y)) (processes (kernel (sys_state y))) ∧
  memory_used (kernel (sys_state (stop y))) = 0.
Proof.
  intros Hc Hy.
  assert (table_ledger (sys_state y)) as Hs.
  { rewrite Hy. by apply table_ledger_call_run, table_ledger_init. }
  split; [apply Hs|]. unfold stop. simpl.
  set (s' := foldl _ (sys_state y) _).
  assert (table_ledger s') as (_ & _ & _ & Hu).
  { by apply terminate_all_table_ledger. }
  assert (processes (kernel s') = []) as Hp by (by apply terminate_all_empties).
  by rewrite Hu, Hp.
Qed.

Lemma stop_returns_all_memory_witness :
  accounted_run init_state busy_calls ∧
  memory_used (kernel (sys_state busy_system)) = 2048 ∧
  memory_used (kernel (sys_state (stop busy_system))) = 0.
Proof.
  assert (accounted_run init_state busy_calls) as H.
  { vm_compute. repeat split. }
  split; [exact H|]. split; [vm_compute; reflexivity|].
  exact (proj2 (stop_returns_all_memory busy_system busy_calls H eq_refl)).
Defined.

(** ** The service registry *)

Lemma register_service_fresh y name instance :
  odict.get name (services y) = None →
  register_service y name instance =
  (true,
   {| sys_state :=
        with_kernel (sys_state y)
          (set_stats (incr_services_registered (stats (kernel (sys_state y))))
                     (kernel (sys_state y)));
      services := odict.set name instance (services y);
      running := running y; started := started y |}).
Proof. intros H. unfold register_service. by rewrite H. Qed.

Lemma unregister_service_known y name :
  is_Some (odict.get name (services y)) →
  unregister_service y name =
  (true,
   {| sys_state := sys_state y; services := odict.del name (services y);
      running := running y; started := started y |}).
Proof. intros [v H]. unfold unregister_service. by rewrite H. Qed.

(** X8: registering a service under a name that is free returns true; the
    name then resolves to that instance, is the last entry of
    [list_services], and the services-registered count has grown by one,
    while other names resolve as before.  Registering the same name again,
    with whatever instance, returns false and changes nothing: the first
    registration stays. *)
Theorem register_service_first_wins (y : System) (name : string)
    (first second : PyValue) :
  odict.get name (services y) = None →
  let r1 := register_service y name first in
  let r2 := register_service r1.2 name second in
  r1.1 = true ∧
  get_service r1.2 name = first ∧
  list_services r1.2 = list_services y ++ [name] ∧
  services_registered (stats (kernel (sys_state r1.2)))
    = services_registered (stats (kernel (sys_state y))) + 1 ∧
  (∀ other, other ≠ name → get_service r1.2 other = get_service y other) ∧
  r2 = (false, r1.2).
Proof.
  intros Hfree. cbv zeta. rewrite (register_service_fresh y name first Hfree).
  simpl. unfold get_service, list_services. simpl.
  split; [done|]. split; [by rewrite odict_get_set_eq|].
  split.
  { rewrite odict_set_fresh by done. unfold odict.keys. by rewrite fmap_app. }
  split; [done|]. split.
  { intros other Hne. by rewrite odict_get_set_ne. }
  unfold register_service. simpl. by rewrite odict_get_set_eq.
Qed.

Lemma register_service_first_wins_witness :
  get_service (register_service init_system "fs" (PyObj 1)).2 "fs" = PyObj 1 ∧
  register_service (register_service init_system "fs" (PyObj 1)).2
    "fs" (PyObj 2)
  = (false, (register_service init_system "fs" (PyObj 1)).2).
Proof.
  pose proof (register_service_first_wins init_system "fs" (PyObj 1) (PyObj 2)
                eq_refl) as (_ & Hg & _ & _ & _ & Hr).
  split; [exact Hg | exact Hr].
Defined.

(** X9: unregistering a registered name returns true; afterwards the name
    resolves to [None], is absent from [list_services], a second
    unregistration returns false and changes nothing, and the name can be
    registered again.  The services-registered count is not lowered: it
    counts registrations, not registered services. *)
Theorem unregister_service_forgets (y : System) (name : string)
    (instance : PyValue) :
  is_Some (odict.get name (services y)) →
  let r := unregister_service y name in
  r.1 = true ∧
  get_service r.2 name = PyNone ∧
  (name ∉ list_services r.2) ∧
  (∀ other, other ≠ name → get_service r.2 other = get_service y other) ∧
  unregister_service r.2 name = (false, r.2) ∧
  (register_service r.2 name instance).1 = true ∧
  services_registered (stats (kernel (sys_state r.2)))
    = services_registered (stats (kernel (sys_state y))).
Proof.
  intros Hv. cbv zeta. rewrite (unregister_service_known y name Hv).
  simpl. unfold get_service, list_services. simpl.
  split; [done|]. split; [by rewrite odict_get_del_eq|].
  split.
  { intros Hin. apply odict_get_keys in Hin. rewrite odict_get_del_eq in Hin.
    by destruct Hin. }
  split.
  { intros other Hne. by rewrite odict_get_del_ne. }
  unfold unregister_service, register_service. simpl.
  by rewrite odict_get_del_eq.
Qed.

Lemma unregister_service_forgets_witness :
  is_Some (odict.get "fs" (services one_service)) ∧
  get_service one_service "fs" = PyObj 1 ∧
  get_service (unregister_service one_service "fs").2 "fs" = PyNone ∧
  services_registered
    (stats (kernel (sys_state (unregister_service one_service "fs").2))) = 1.
Proof.
  assert (is_Some (odict.get "fs" (services one_service))) as H.
  { vm_compute. by eexists. }
  pose proof (unregister_service_forgets one_service "fs" PyNone H)
    as (_ & Hg & _ & _ & _ & _ & Hc).
  split; [exact H|]. split; [vm_compute; reflexivity|].
  split; [exact Hg|]. rewrite Hc. vm_compute. reflexivity.
Defined.

(** ** Starting and finishing a process body *)

(** X10: a process created without a body cannot be started:
    [start_process] returns false and changes nothing.  A process created
    with a body is started by the first [start_process], which returns
    true; a second call while the process is still [READY] runs into
    [Thread.start()] on a started thread and raises [RuntimeError]; once
    the body has been entered and the process is [RUNNING], the call
    returns false. *)
Theorem start_process_needs_body (y : System) (pid name : string)
    (has_target : bool) (priority now : Z) :
  memory_used (kernel (sys_state y)) + 1024
    <= memory_pool (kernel (sys_state y)) →
  Forall (fun l => (l < length (heap (sys_state y)))%nat) (started y) →
  let y1 :=
    set_sys_state
      (create_process (sys_state y) pid name has_target priority now).2 y in
  let r1 := start_process y1 pid in
  if has_target then
    r1.1 = StartReturns true ∧
    sys_state r1.2 = sys_state y1 ∧
    (start_process r1.2 pid).1 = StartRuntimeError ∧
    (start_process
       (set_sys_state (_run_process_enter (sys_state r1.2) pid) r1.2) pid).1
    = StartReturns false
  else r1 = (StartReturns false, y1).
Proof.
  intros Hfree Hstarted. cbv zeta.
  rewrite (create_process_ok (sys_state y) pid name has_target priority now Hfree).
  assert (length (heap (sys_state y)) ∉ started y) as Hnot.
  { intros Hin. rewrite Forall_forall in Hstarted.
    specialize (Hstarted _ Hin). lia. }
  simpl. set (y1 := set_sys_state _ y).
  assert (start_process y1 pid =
          if has_target then
            (StartReturns true,
             {| sys_state := sys_state y1; services := services y1;
                running := running y1;
                started := length (heap (sys_state y)) :: started y1 |})
          else (StartReturns false, y1)) as E1.
  { unfold start_process, y1. simpl.
    rewrite odict_get_set_eq, lookup_app_r, Nat.sub_diag by lia. simpl.
    destruct has_target; simpl; [|done]. by rewrite decide_False. }
  rewrite E1. destruct has_target; simpl; [|done].
  split; [done|]. split; [done|]. split.
  - unfold start_process. simpl.
    rewrite odict_get_set_eq, lookup_app_r, Nat.sub_diag by lia. simpl.
    rewrite decide_True; [done|left].
  - unfold start_process, _run_process_enter. simpl.
    rewrite odict_get_set_eq. simpl. rewrite odict_get_set_eq.
    by rewrite alter_last, lookup_app_r, Nat.sub_diag by lia.
Qed.

Lemma start_process_needs_body_witness :
  (start_process
     (set_sys_state
        (create_process (sys_state init_system) "a1" "idle" false 1 10).2
        init_system) "a1").1
  = StartReturns false.
Proof.
  assert (memory_used (kernel (sys_state init_system)) + 1024
          <= memory_pool (kernel (sys_state init_system))) as H.
  { vm_compute. discriminate. }
  pose proof (start_process_needs_body init_system "a1" "idle" false 1 10 H
                (Forall_nil_2 _)) as Hs.
  cbv beta zeta iota in Hs. rewrite Hs. reflexivity.
Defined.

(** X11: when the body of a process returns or raises, [_run_process]
    marks the process [TERMINATED] and nothing else: the process stays in
    the table and in [list_processes], keeps its recorded allocation, the
    used counter and the message queues are as before, and the scheduler
    no longer sees it as ready.  Its memory comes back only with
    [terminate_process], which still succeeds. *)
Theorem finished_process_keeps_its_memory (s : State) (pid : string)
    (process : loc) (p : Process.t) :
  get_process (kernel s) pid = Some process →
  heap s !! process = Some p →
  let s' := _run_process_finally s pid in
  heap s' !! process = Some (Process.set_state TERMINATED p) ∧
  kernel s' = kernel s ∧
  list_processes s' = list_processes s ∧
  (process ∉ Scheduler._get_ready_processes s') ∧
  (terminate_process s' pid).1 = true ∧
  memory_used (kernel (terminate_process s' pid).2)
    = memory_used (kernel s) - Z.max 0 (Process.memory_allocated p).
Proof.
  intros Hg Hp. unfold get_process in Hg. unfold _run_process_finally.
  rewrite Hg. simpl.
  split; [by rewrite list_lookup_alter_eq, Hp|].
  split; [done|]. split; [done|]. split.
  { unfold Scheduler._get_ready_processes. rewrite list_elem_of_filter.
    intros [Hst _]. unfold Scheduler.state_of in Hst. simpl in Hst.
    rewrite list_lookup_alter_eq, Hp in Hst. done. }
  unfold terminate_process. simpl. rewrite Hg.
  unfold deallocate_memory. simpl.
  rewrite !list_lookup_alter_eq, Hp. simpl.
  destruct (Z.gtb_spec (Process.memory_allocated p) 0); simpl; split; try done;
    lia.
Qed.

Lemma finished_process_keeps_its_memory_witness :
  get_process (kernel (sys_state busy_system)) "b2" = Some 1%nat ∧
  memory_used (kernel (_run_process_finally (sys_state busy_system) "b2"))
    = 2048 ∧
  (1%nat) ∉ Scheduler._get_ready_processes
              (_run_process_finally (sys_state busy_system) "b2").
Proof.
  assert (get_process (kernel (sys_state busy_system)) "b2" = Some 1%nat) as H
    by (vm_compute; reflexivity).
  assert (∃ p, heap (sys_state busy_system) !! (1%nat) = Some p) as [p Hp].
  { vm_compute. by eexists. }
  pose proof (finished_process_keeps_its_memory (sys_state busy_system) "b2"
                1%nat p H Hp) as (_ & Hk & _ & Hr & _).
  split; [exact H|]. split; [|exact Hr].
  rewrite Hk. vm_compute. reflexivity.
Defined.

(** * Further properties of the IPC manager *)

Lemma ipc_send_ok m k sender receiver data msg_type now :
  is_Some (get_process k sender) → is_Some (get_process k receiver) →
  IPCManager.send_message m k sender receiver data msg_type now =
  (true,
   IPCManager.set_messages
     (<[receiver := default [] (IPCManager.messages m !! receiver)
                    ++ [IPCManager.Message_init sender receiver data msg_type now]]>
        (IPCManager.messages m)) m).
Proof.
  intros [? Hs] [? Hr]. unfold IPCManager.send_message. by rewrite Hs, Hr.
Qed.

(** X12: the manager's messages are delivered oldest first.  Two messages
    sent by existing processes to an existing receiver are both accepted
    (the receiver's list is made on first use); the pending count grows by
    two and [has_messages] is true; [receive_message] then hands out what
    was pending before, followed by the first and then the second message,
    each with its sender, receiver, payload, type tag and derived id. *)
Theorem ipc_messages_fifo (m : IPCManager.t) (k : Microkernel.t)
    (s1 s2 receiver : string) (a b : PyValue) (ty1 ty2 : string) (t1 t2 : Z) :
  is_Some (get_process k s1) → is_Some (get_process k s2) →
  is_Some (get_process k receiver) →
  let q := default [] (IPCManager.messages m !! receiver) in
  let ma := IPCManager.Message_init s1 receiver a ty1 t1 in
  let mb := IPCManager.Message_init s2 receiver b ty2 t2 in
  let r1 := IPCManager.send_message m k s1 receiver a ty1 t1 in
  let r2 := IPCManager.send_message r1.2 k s2 receiver b ty2 t2 in
  r1.1 = true ∧ r2.1 = true ∧
  IPCManager.messages r2.2 !! receiver = Some (q ++ [ma; mb]) ∧
  IPCManager.get_message_count r2.2 receiver
    = (IPCManager.get_message_count m receiver + 2)%nat ∧
  IPCManager.has_messages r2.2 receiver = true ∧
  (IPCManager.receive_message r2.2 receiver).1 = head (q ++ [ma; mb]) ∧
  IPCManager.messages (IPCManager.receive_message r2.2 receiver).2 !! receiver
    = Some (tail (q ++ [ma; mb])).
Proof.
  intros H1 H2 Hr. cbv zeta.
  set (q := default [] (IPCManager.messages m !! receiver)).
  set (ma := IPCManager.Message_init s1 receiver a ty1 t1).
  set (mb := IPCManager.Message_init s2 receiver b ty2 t2).
  rewrite (ipc_send_ok m k s1 receiver a ty1 t1 H1 Hr). fold q ma. simpl.
  set (m1 := IPCManager.set_messages _ m).
  assert (IPCManager.messages m1 !! receiver = Some (q ++ [ma])) as E1.
  { unfold m1. simpl. apply lookup_insert_eq. }
  rewrite (ipc_send_ok m1 k s2 receiver b ty2 t2 H2 Hr). fold mb.
  rewrite E1. simpl. rewrite <- app_assoc. simpl.
  set (m2 := IPCManager.set_messages _ m1).
  assert (IPCManager.messages m2 !! receiver = Some (q ++ [ma; mb])) as E2.
  { unfold m2. simpl. apply lookup_insert_eq. }
  split; [done|]. split; [done|]. split; [done|].
  unfold IPCManager.get_message_count, IPCManager.has_messages,
    IPCManager.receive_message. rewrite E2. fold q. simpl.
  split; [rewrite length_app; simpl; lia|].
  split; [rewrite length_app, Nat.add_comm; done|].
  destruct q as [|x q']; simpl; by rewrite lookup_insert_eq.
Qed.

Lemma ipc_messages_fifo_witness :
  (IPCManager.receive_message
     (IPCManager.send_message
        (IPCManager.send_message IPCManager.init (kernel (sys_state busy_system))
           "a1" "b2" (PyStr "A") "data" 1).2
        (kernel (sys_state busy_system)) "b2" "b2" (PyStr "B") "data" 2).2
     "b2").1
  = Some (IPCManager.Message_init "a1" "b2" (PyStr "A") "data" 1).
Proof.
  assert (is_Some (get_process (kernel (sys_state busy_system)) "a1")) as Ha.
  { vm_compute. by eexists. }
  assert (is_Some (get_process (kernel (sys_state busy_system)) "b2")) as Hb.
  { vm_compute. by eexists. }
  exact (proj1 (proj2 (proj2 (proj2 (proj2 (proj2
    (ipc_messages_fifo IPCManager.init (kernel (sys_state busy_system))
       "a1" "b2" "b2" (PyStr "A") (PyStr "B") "data" "data" 1 2 Ha Hb Hb))))))).
Defined.

(** X13: the manager checks the two ids when a message is sent and never
    again.  A message sent to a process that is terminated afterwards is
    still handed out by [receive_message]; what the termination prevents is
    a new send to, or from, the terminated id, which is rejected and leaves
    the manager's queues alone. *)
Theorem ipc_queue_outlives_receiver (m : IPCManager.t) (s : State)
    (sender receiver : string) (data : PyValue) (msg_type : string)
    (now later : Z) :
  is_Some (get_process (kernel s) sender) →
  is_Some (get_process (kernel s) receiver) →
  IPCManager.messages m !! receiver = None →
  let m1 := (IPCManager.send_message m (kernel s) sender receiver data
               msg_type now).2 in
  let k' := kernel (terminate_process s receiver).2 in
  (IPCManager.receive_message m1 receiver).1
    = Some (IPCManager.Message_init sender receiver data msg_type now) ∧
  IPCManager.send_message m1 k' sender receiver data msg_type later
    = (false, m1) ∧
  IPCManager.send_message m1 k' receiver sender data msg_type later
    = (false, m1).
Proof.
  intros Hs Hr Hq. cbv zeta.
  rewrite (ipc_send_ok m (kernel s) sender receiver data msg_type now Hs Hr).
  simpl. rewrite Hq. simpl.
  assert (get_process (kernel (terminate_process s receiver).2) receiver = None)
    as Hgone.
  { destruct Hr as [process Hp]. unfold get_process in *.
    unfold terminate_process. rewrite Hp.
    set (s1 := {| heap := alter _ process (heap s); kernel := kernel s |}).
    destruct (deallocate_memory_frame s1 process) as (Hpr & _).
    destruct (deallocate_memory s1 process) as [b s2]. simpl in *.
    rewrite Hpr. apply odict_get_del_eq. }
  split.
  { unfold IPCManager.receive_message. simpl. by rewrite lookup_insert_eq. }
  unfold IPCManager.send_message. rewrite Hgone.
  split; [|done].
  by destruct (get_process (kernel (terminate_process s receiver).2) sender).
Qed.

Lemma ipc_queue_outlives_receiver_witness :
  IPCManager.send_message
    (IPCManager.send_message IPCManager.init (kernel (sys_state busy_system))
       "a1" "b2" (PyStr "A") "data" 1).2
    (kernel (terminate_process (sys_state busy_system) "b2").2)
    "a1" "b2" (PyStr "A") "data" 2
  = (false,
     (IPCManager.send_message IPCManager.init (kernel (sys_state busy_system))
        "a1" "b2" (PyStr "A") "data" 1).2).
Proof.
  assert (is_Some (get_process (kernel (sys_state busy_system)) "a1")) as Ha.
  { vm_compute. by eexists. }
  assert (is_Some (get_process (kernel (sys_state busy_system)) "b2")) as Hb.
  { vm_compute. by eexists. }
  exact (proj1 (proj2
    (ipc_queue_outlives_receiver IPCManager.init (sys_state busy_system)
       "a1" "b2" (PyStr "A") "data" 1 2 Ha Hb (lookup_empty _)))).
Defined.

(** ** Semaphores *)

Lemma semaphore_event_value s e :
  Semaphore.value (Semaphore.apply_event s e)
  = Semaphore.value s + released_count [e] - acquired_count s [e].
Proof.
  destruct e as [p t el | p]; simpl; [|lia].
  pose proof (acquire_turn_spec s p t el) as Hs.
  destruct (Semaphore.acquire_turn s p t el) as [[] s']; simpl; lia.
Qed.

Lemma semaphore_run_value evs : ∀ s,
  Semaphore.value (Semaphore.run s evs)
  = Semaphore.value s + released_count evs - acquired_count s evs.
Proof.
  induction evs as [|e evs IH]; intros s; simpl; [lia|].
  unfold Semaphore.run in IH. rewrite IH.
  pose proof (semaphore_event_value s e) as He. simpl in He.
  destruct e; simpl in *; lia.
Qed.

Lemma semaphore_run_nonneg evs : ∀ s,
  0 <= Semaphore.value s → 0 <= Semaphore.value (Semaphore.run s evs).
Proof.
  induction evs as [|e evs IH]; intros s Hs; simpl; [done|].
  apply IH. by apply semaphore_event_nonneg.
Qed.

(** X14: the count of a semaphore is its initial value plus the releases
    minus the successful acquisitions, whatever the threads do; so with a
    non-negative initial value the acquisitions never outnumber the
    releases by more than the initial value: no more than that many
    holders at a time. *)
Theorem semaphore_holders_bounded (name : string) (initial : Z)
    (evs : list Semaphore.event) :
  0 <= initial →
  let s0 := Semaphore.init name initial in
  Semaphore.value (Semaphore.run s0 evs)
    = initial + released_count evs - acquired_count s0 evs ∧
  acquired_count s0 evs - released_count evs <= initial.
Proof.
  intros Hinit s0.
  pose proof (semaphore_run_value evs s0) as Hv.
  pose proof (semaphore_run_nonneg evs s0 Hinit) as Hn.
  simpl in Hv. split; lia.
Qed.

Lemma semaphore_holders_bounded_witness :
  0 <= 1 ∧
  acquired_count (Semaphore.init "mutex" 1) semaphore_events = 2 ∧
  released_count semaphore_events = 1 ∧
  acquired_count (Semaphore.init "mutex" 1) semaphore_events
    - released_count semaphore_events <= 1.
Proof.
  assert (0 <= 1) as H by lia.
  split; [exact H|]. split; [vm_compute; reflexivity|].
  split; [vm_compute; reflexivity|].
  exact (proj2 (semaphore_holders_bounded "mutex" 1 semaphore_events H)).
Defined.


Lemma list_remove_absent x l : x ∉ l → list_remove x l = l.
Proof.
  induction l as [|y l IH]; simpl; [done|].
  intros [Hne Hx]%not_elem_of_cons. rewrite decide_False by done.
  by rewrite IH.
Qed.

(** A thread nobody wakes, on a semaphore without units. *)
Lemma acquire_exhausted_blocks clock : ∀ s process_id timeout,
  Semaphore.value s <= 0 → timeout = None ∨ timeout = Some 0 →
  (Semaphore.acquire clock s process_id timeout).1 = Blocks ∧
  Semaphore.value (Semaphore.acquire clock s process_id timeout).2
    = Semaphore.value s.
Proof.
  induction clock as [|e clock IH]; intros s p t Hv Ht; simpl; [done|].
  assert (Semaphore.acquire_turn s p t e
          = (Semaphore.Parked,
             Semaphore.set_waiting
               (list_add p (Semaphore.waiting_processes s)) s)) as E.
  { unfold Semaphore.acquire_turn.
    destruct (Z.leb_spec (Semaphore.value s) 0); [|lia].
    by destruct Ht as [-> | ->]. }
  rewrite E.
  destruct (IH (Semaphore.set_waiting
                  (list_add p (Semaphore.waiting_processes s)) s) p t Hv Ht)
    as [H1 H2].
  split; [done|]. by rewrite H2.
Qed.

(** X15: what [acquire] does on a semaphore without units, for a caller
    that no other thread wakes.  Without a timeout, and also with a timeout
    of zero (which the code treats as none), the call never returns, however
    long the caller waits.  With any other timeout the call returns false
    as soon as the time read reaches the timeout, and in both cases the
    count is untouched. *)
Theorem acquire_on_exhausted_semaphore (s : Semaphore.t) (process_id : string)
    (clock : list Z) (tmo : Z) :
  Semaphore.value s <= 0 →
  (Semaphore.acquire clock s process_id None).1 = Blocks ∧
  (Semaphore.acquire clock s process_id (Some 0)).1 = Blocks ∧
  (tmo ≠ 0 → Exists (fun e => tmo <= e) clock →
   (Semaphore.acquire clock s process_id (Some tmo)).1 = Returns false) ∧
  Semaphore.value (Semaphore.acquire clock s process_id None).2
    = Semaphore.value s ∧
  Semaphore.value (Semaphore.acquire clock s process_id (Some tmo)).2
    = Semaphore.value s.
Proof.
  intros Hv.
  split; [by apply acquire_exhausted_blocks; auto|].
  split; [by apply acquire_exhausted_blocks; auto|].
  split; [|split; [by apply acquire_exhausted_blocks; auto|]].
  - intros Hne Hex. revert s Hv.
    induction Hex as [e clock He | e clock Hex IH]; intros s Hv; simpl;
      unfold Semaphore.acquire_turn;
      destruct (Z.leb_spec (Semaphore.value s) 0); try lia;
      destruct (Z.eqb_spec tmo 0); try done;
      destruct (Z.leb_spec (tmo - e) 0); try done; try lia.
    by apply IH.
  - revert s Hv. induction clock as [|e clock IH]; intros s Hv; simpl; [done|].
    unfold Semaphore.acquire_turn.
    destruct (Z.leb_spec (Semaphore.value s) 0); [|lia].
    destruct (Z.eqb_spec tmo 0); [by rewrite IH|].
    destruct (Z.leb_spec (tmo - e) 0); [done|]. by rewrite IH.
Qed.

Lemma acquire_on_exhausted_semaphore_witness :
  (Semaphore.acquire [0; 3; 5] (Semaphore.init "gate" 0) "p" (Some 5)).1
    = Returns false ∧
  (Semaphore.acquire [0; 3; 5] (Semaphore.init "gate" 0) "p" (Some 0)).1
    = Blocks.
Proof.
  pose proof (acquire_on_exhausted_semaphore (Semaphore.init "gate" 0) "p"
                [0; 3; 5] 5 ltac:(simpl; lia)) as (_ & Hz & Ht & _).
  split; [|exact Hz].
  apply Ht; [lia|]. right. right. left. lia.
Defined.


Lemma semaphore_set_waiting_id (s : Semaphore.t) :
  Semaphore.set_waiting (Semaphore.waiting_processes s) s = s.
Proof. by destruct s. Qed.




(** X17: semaphores through the manager.  Creating a semaphore under a
    free name with a positive initial value succeeds; an [acquire] through
    the manager then returns true and leaves one unit less, and a [release]
    puts it back.  Creating the same name again returns false and does not
    reset the semaphore: a unit that is held stays held.  Acquiring or
    releasing a name that was never created returns false and changes
    nothing. *)
Theorem manager_semaphore_lifecycle (m : IPCManager.t)
    (name process_id : string) (initial again elapsed : Z) (clock : list Z)
    (timeout : option Z) :
  IPCManager.semaphores m !! name = None →
  0 < initial →
  let r0 := IPCManager.acquire_semaphore (elapsed :: clock) m name process_id
              timeout in
  let c := IPCManager.create_semaphore m name initial in
  let a := IPCManager.acquire_semaphore (elapsed :: clock) c.2 name process_id
             timeout in
  let d := IPCManager.create_semaphore a.2 name again in
  let r := IPCManager.release_semaphore a.2 name process_id in
  r0 = (Returns false, m) ∧
  IPCManager.release_semaphore m name process_id = (false, m) ∧
  c.1 = true ∧
  a.1 = Returns true ∧
  Semaphore.value <$> IPCManager.semaphores a.2 !! name = Some (initial - 1) ∧
  d = (false, a.2) ∧
  r.1 = true ∧
  Semaphore.value <$> IPCManager.semaphores r.2 !! name = Some initial.
Proof.
  intros Hfree Hpos. cbv zeta.
  set (m1 := IPCManager.set_semaphores
               (<[name := Semaphore.init name initial]> (IPCManager.semaphores m))
               m).
  set (s1 := Semaphore.set_waiting []
               (Semaphore.set_value (initial - 1) (Semaphore.init name initial))).
  set (m2 := IPCManager.set_semaphores
               (<[name := s1]> (IPCManager.semaphores m1)) m1).
  assert (IPCManager.create_semaphore m name initial = (true, m1)) as Ec.
  { unfold IPCManager.create_semaphore. by rewrite Hfree. }
  assert (IPCManager.semaphores m1 !! name
          = Some (Semaphore.init name initial)) as E1.
  { unfold m1. simpl. apply lookup_insert_eq. }
  assert (IPCManager.acquire_semaphore (elapsed :: clock) m1 name process_id
            timeout = (Returns true, m2)) as Ea.
  { unfold IPCManager.acquire_semaphore. rewrite E1. simpl.
    unfold Semaphore.acquire_turn. simpl.
    destruct (Z.leb_spec initial 0); [lia|done]. }
  assert (IPCManager.semaphores m2 !! name = Some s1) as E2.
  { unfold m2. simpl. apply lookup_insert_eq. }
  rewrite Ec. cbn [fst snd]. rewrite Ea. cbn [fst snd].
  split. { unfold IPCManager.acquire_semaphore. by rewrite Hfree. }
  split. { unfold IPCManager.release_semaphore. by rewrite Hfree. }
  split; [done|]. split; [done|].
  split. { by rewrite E2. }
  split. { unfold IPCManager.create_semaphore. by rewrite E2. }
  unfold IPCManager.release_semaphore. rewrite E2. cbn [fst snd].
  split; [done|]. simpl. rewrite lookup_insert_eq. simpl. f_equal. lia.
Qed.

Lemma manager_semaphore_lifecycle_witness :
  (IPCManager.acquire_semaphore [0]
     (IPCManager.create_semaphore IPCManager.init "mutex" 1).2 "mutex" "p"
     None).1 = Returns true.
Proof.
  exact (proj1 (proj2 (proj2 (proj2
    (manager_semaphore_lifecycle IPCManager.init "mutex" "p" 1 9 0 [] None
       (lookup_empty _) ltac:(lia)))))).
Defined.

(** ** Shared memory *)

Lemma list_add_elem x l : x ∈ list_add x l.
Proof.
  unfold list_add. case_decide; [done|]. apply elem_of_app. right. left.
Qed.

Lemma list_add_mono x y l : y ∈ l → y ∈ list_add x l.
Proof.
  intros H. unfold list_add. case_decide; [done|]. apply elem_of_app. by left.
Qed.

Lemma shm_step_facts m o :
  SharedMemory.access_count (shm_step m o)
    = SharedMemory.access_count m + shm_granted m [o] ∧
  (∀ p, p ∈ SharedMemory.authorized_processes m →
        p ∈ SharedMemory.authorized_processes (shm_step m o)) ∧
  (∀ key, shm_keeps key o →
          SharedMemory.data (shm_step m o) !! key = SharedMemory.data m !! key) ∧
  SharedMemory.name (shm_step m o) = SharedMemory.name m ∧
  SharedMemory.size (shm_step m o) = SharedMemory.size m.
Proof.
  destruct o as [p | p k | p k v]; simpl.
  - repeat split; try done; try lia. intros q Hq. by apply list_add_mono.
  - unfold SharedMemory.read. case_decide; simpl; repeat split; try done; lia.
  - unfold SharedMemory.write. case_decide; simpl; repeat split; try done;
      try lia.
    intros key Hk. by rewrite lookup_insert_ne.
Qed.

(** X19: over any sequence of authorizations, reads and writes on a
    segment, the access counter grows by exactly the number of reads and
    writes made by a process that was authorized at the time (refused calls
    are not counted); an authorization is never lost; a key that no call
    writes to keeps its value; name and declared size never change. *)
Theorem shared_memory_run (m : SharedMemory.t) (os : list shm_op) :
  SharedMemory.access_count (shm_run m os)
    = SharedMemory.access_count m + shm_granted m os ∧
  (∀ p, p ∈ SharedMemory.authorized_processes m →
        p ∈ SharedMemory.authorized_processes (shm_run m os)) ∧
  (∀ key, Forall (shm_keeps key) os →
          SharedMemory.data (shm_run m os) !! key = SharedMemory.data m !! key) ∧
  SharedMemory.name (shm_run m os) = SharedMemory.name m ∧
  SharedMemory.size (shm_run m os) = SharedMemory.size m.
Proof.
  revert m. induction os as [|o os IH]; intros m; simpl.
  - repeat split; try done. lia.
  - destruct (IH (shm_step m o)) as (Hc & Ha & Hd & Hn & Hs).
    destruct (shm_step_facts m o) as (Hc1 & Ha1 & Hd1 & Hn1 & Hs1).
    unfold shm_run in *. simpl in Hc1.
    split; [lia|]. split; [intros p Hp; by apply Ha, Ha1|].
    split; [|split; congruence].
    intros key [Ho Hos]%Forall_cons. rewrite Hd by done. by apply Hd1.
Qed.

Lemma shared_memory_run_witness :
  SharedMemory.access_count (shm_run (SharedMemory.init "seg" 64) shm_calls) = 2.
Proof.
  rewrite (proj1 (shared_memory_run (SharedMemory.init "seg" 64) shm_calls)).
  vm_compute. reflexivity.
Defined.

(** X18: shared memory through the manager.  On a name that is free,
    reads return [None] and writes and authorizations return false, as
    there is no such segment.  After [create_shared_memory] a process
    still has no access until it is authorized: its write returns false.
    Once authorized its write returns true and its read of that key
    returns the value written.  Creating the name again returns false and
    keeps the segment with its data. *)
Theorem manager_shared_memory_lifecycle (m : IPCManager.t)
    (name process_id key : string) (value : PyValue) (size again : Z) :
  IPCManager.shared_memories m !! name = None →
  let c := IPCManager.create_shared_memory m name size in
  let w0 := IPCManager.write_shared_memory c.2 name process_id key value in
  let a := IPCManager.authorize_shared_memory_access w0.2 name process_id in
  let w := IPCManager.write_shared_memory a.2 name process_id key value in
  let d := IPCManager.create_shared_memory w.2 name again in
  let r := IPCManager.read_shared_memory d.2 name process_id key in
  IPCManager.read_shared_memory m name process_id key = (PyNone, m) ∧
  IPCManager.write_shared_memory m name process_id key value = (false, m) ∧
  IPCManager.authorize_shared_memory_access m name process_id = (false, m) ∧
  c.1 = true ∧ w0.1 = false ∧ a.1 = true ∧ w.1 = true ∧
  d = (false, w.2) ∧ r.1 = value.
Proof.
  intros Hfree. cbv zeta.
  set (sm0 := SharedMemory.init name size).
  set (m1 := IPCManager.set_shared_memories
               (<[name := sm0]> (IPCManager.shared_memories m)) m).
  assert (IPCManager.create_shared_memory m name size = (true, m1)) as Ec.
  { unfold IPCManager.create_shared_memory. by rewrite Hfree. }
  assert (IPCManager.shared_memories m1 !! name = Some sm0) as E1.
  { unfold m1. simpl. apply lookup_insert_eq. }
  set (m2 := IPCManager.set_shared_memories
               (<[name := sm0]> (IPCManager.shared_memories m1)) m1).
  assert (IPCManager.write_shared_memory m1 name process_id key value
          = (false, m2)) as Ew0.
  { unfold IPCManager.write_shared_memory. rewrite E1.
    unfold SharedMemory.write. rewrite decide_False; [done|].
    simpl. apply not_elem_of_nil. }
  assert (IPCManager.shared_memories m2 !! name = Some sm0) as E2.
  { unfold m2. simpl. apply lookup_insert_eq. }
  set (sm1 := SharedMemory.authorize_process sm0 process_id).
  set (m3 := IPCManager.set_shared_memories
               (<[name := sm1]> (IPCManager.shared_memories m2)) m2).
  assert (IPCManager.authorize_shared_memory_access m2 name process_id
          = (true, m3)) as Ea.
  { unfold IPCManager.authorize_shared_memory_access. by rewrite E2. }
  assert (IPCManager.shared_memories m3 !! name = Some sm1) as E3.
  { unfold m3. simpl. apply lookup_insert_eq. }
  assert (process_id ∈ SharedMemory.authorized_processes sm1) as Hin.
  { simpl. apply list_add_elem. }
  set (sm2 := (SharedMemory.write sm1 process_id key value).2).
  set (m4 := IPCManager.set_shared_memories
               (<[name := sm2]> (IPCManager.shared_memories m3)) m3).
  assert (IPCManager.write_shared_memory m3 name process_id key value
          = (true, m4)) as Ew.
  { unfold IPCManager.write_shared_memory. rewrite E3. unfold m4, sm2.
    unfold SharedMemory.write. by rewrite decide_True. }
  assert (IPCManager.shared_memories m4 !! name = Some sm2) as E4.
  { unfold m4. simpl. apply lookup_insert_eq. }
  rewrite Ec. cbn [fst snd]. rewrite Ew0. cbn [fst snd].
  rewrite Ea. cbn [fst snd]. rewrite Ew. cbn [fst snd].
  assert (IPCManager.create_shared_memory m4 name again = (false, m4)) as Ed.
  { unfold IPCManager.create_shared_memory. by rewrite E4. }
  rewrite Ed. cbn [fst snd].
  unfold IPCManager.read_shared_memory at 1,
    IPCManager.write_shared_memory at 1,
    IPCManager.authorize_shared_memory_access at 1. rewrite Hfree.
  repeat (split; [done|]).
  unfold IPCManager.read_shared_memory. rewrite E4.
  unfold sm2, SharedMemory.write. rewrite decide_True by done.
  unfold SharedMemory.read. simpl. rewrite decide_True by apply list_add_elem.
  simpl. by rewrite lookup_insert_eq.
Qed.

Lemma manager_shared_memory_lifecycle_witness :
  (IPCManager.write_shared_memory
     (IPCManager.create_shared_memory IPCManager.init "seg" 64).2
     "seg" "bob" "x" (PyInt 1)).1 = false.
Proof.
  exact (proj1 (proj2 (proj2 (proj2 (proj2
    (manager_shared_memory_lifecycle IPCManager.init "seg" "bob" "x" (PyInt 1)
       64 0 (lookup_empty _))))))).
Defined.

(** ** Pipes *)

Lemma pipe_step_bounded p o :
  0 < Pipe.maxsize p →
  Z.of_nat (length (Pipe.queue p)) <= Pipe.maxsize p →
  Z.of_nat (length (Pipe.queue (pipe_step p o))) <= Pipe.maxsize (pipe_step p o)
  ∧ Pipe.maxsize (pipe_step p o) = Pipe.maxsize p.
Proof.
  intros Hpos Hlen. destruct o as [r | w | w d t | r t]; simpl; try done.
  - unfold Pipe.write. case_decide; [|done].
    unfold Pipe.queue_put.
    destruct (Z.ltb_spec 0 (Pipe.maxsize p)); [|lia].
    destruct (Z.leb_spec (Pipe.maxsize p) (Z.of_nat (length (Pipe.queue p))));
      simpl.
    + destruct t as [tmo|]; [|done]. by destruct (tmo <? 0).
    + destruct t as [tmo|]; [destruct (tmo <? 0); [done|]|]; simpl;
        rewrite length_app; simpl; split; try done; lia.
  - unfold Pipe.read. case_decide; [|done].
    unfold Pipe.queue_get.
    destruct t as [tmo|]; [destruct (tmo <? 0); [done|]|];
      destruct (Pipe.queue p) as [|x q] eqn:E; simpl; rewrite ?E; try done;
      simpl in Hlen; split; try done; lia.
Qed.

(** X20: a pipe created with a positive capacity never holds more items
    than that, whatever sequence of grants, writes and reads (by whomever,
    with whatever timeouts) is applied to it; the capacity itself never
    changes. *)
Theorem pipe_never_exceeds_capacity (name : string) (max_size now : Z)
    (os : list pipe_op) :
  0 < max_size →
  Z.of_nat (length (Pipe.queue (pipe_run (Pipe.init name max_size now) os)))
    <= max_size ∧
  Pipe.maxsize (pipe_run (Pipe.init name max_size now) os) = max_size.
Proof.
  intros Hpos.
  assert (∀ p, 0 < Pipe.maxsize p →
               Z.of_nat (length (Pipe.queue p)) <= Pipe.maxsize p →
               Z.of_nat (length (Pipe.queue (pipe_run p os)))
                 <= Pipe.maxsize p ∧
               Pipe.maxsize (pipe_run p os) = Pipe.maxsize p) as H.
  { induction os as [|o os IH]; intros p Hp Hl; simpl; [done|].
    destruct (pipe_step_bounded p o Hp Hl) as [Hl1 Hm1].
    destruct (IH (pipe_step p o)) as [Hl2 Hm2]; [lia|done|].
    unfold pipe_run in *. split; [lia | congruence]. }
  apply (H (Pipe.init name max_size now)); simpl; lia.
Qed.

Lemma pipe_never_exceeds_capacity_witness :
  0 < 2 ∧
  Pipe.queue (pipe_run (Pipe.init "data" 2 0) pipe_calls) = [PyInt 2; PyInt 4] ∧
  Z.of_nat (length (Pipe.queue (pipe_run (Pipe.init "data" 2 0) pipe_calls)))
    <= 2.
Proof.
  assert (0 < 2) as H by lia.
  split; [exact H|]. split; [vm_compute; reflexivity|].
  exact (proj1 (pipe_never_exceeds_capacity "data" 2 0 pipe_calls H)).
Defined.

Lemma pipe_set_queue_id (p : Pipe.t) : Pipe.set_queue (Pipe.queue p) p = p.
Proof. by destruct p. Qed.

Lemma queue_put_room q maxsize item timeout :
  timeout_ok timeout →
  maxsize <= 0 ∨ Z.of_nat (length q) < maxsize →
  Pipe.queue_put q maxsize item timeout = Pipe.PutDone (q ++ [item]).
Proof.
  intros Ht Hroom. unfold Pipe.queue_put.
  assert ((0 <? maxsize) && (maxsize <=? Z.of_nat (length q)) = false) as ->.
  { apply andb_false_iff. destruct Hroom as [H|H].
    - left. by apply Z.ltb_ge.
    - right. by apply Z.leb_gt. }
  destruct timeout as [tmo|]; [|done]. simpl in Ht.
  by destruct (Z.ltb_spec tmo 0); [lia|].
Qed.

Lemma queue_get_item x q timeout :
  timeout_ok timeout → Pipe.queue_get (x :: q) timeout = Pipe.GetItem x q.
Proof.
  intros Ht. unfold Pipe.queue_get. destruct timeout as [tmo|]; [|done].
  simpl in Ht. by destruct (Z.ltb_spec tmo 0); [lia|].
Qed.

(** X21: a pipe hands out data in the order it was written.  On an empty
    pipe with room for two items (capacity at least two, or unbounded), two
    writes by an authorized writer succeed, the next two reads by an
    authorized reader return the first and then the second item, a further
    read under a timeout returns [None], and the pipe is then as it was
    before the writes. *)
Theorem pipe_fifo (p : Pipe.t) (w r : string) (a b : PyValue)
    (tw1 tw2 tr1 tr2 : option Z) (tmo : Z) :
  Pipe.queue p = [] →
  w ∈ Pipe.writers p → r ∈ Pipe.readers p →
  Pipe.maxsize p <= 0 ∨ 2 <= Pipe.maxsize p →
  timeout_ok tw1 → timeout_ok tw2 → timeout_ok tr1 → timeout_ok tr2 →
  0 <= tmo →
  let w1 := Pipe.write p w a tw1 in
  let w2 := Pipe.write w1.2 w b tw2 in
  let r1 := Pipe.read w2.2 r tr1 in
  let r2 := Pipe.read r1.2 r tr2 in
  let r3 := Pipe.read r2.2 r (Some tmo) in
  w1.1 = Returns true ∧ w2.1 = Returns true ∧
  Pipe.queue w2.2 = [a; b] ∧
  r1.1 = Returns a ∧ r2.1 = Returns b ∧
  r3 = (Returns PyNone, p).
Proof.
  intros Hq Hw Hr Hcap H1 H2 H3 H4 Ht. cbv zeta.
  assert (Pipe.write p w a tw1 = (Returns true, Pipe.set_queue [a] p)) as E1.
  { unfold Pipe.write. rewrite decide_True by done.
    rewrite queue_put_room; [by rewrite Hq | done |].
    rewrite Hq. simpl. lia. }
  rewrite E1. cbn [fst snd].
  assert (Pipe.write (Pipe.set_queue [a] p) w b tw2
          = (Returns true, Pipe.set_queue [a; b] p)) as E2.
  { unfold Pipe.write. simpl. rewrite decide_True by done.
    rewrite queue_put_room; [done | done |]. simpl. lia. }
  rewrite E2. cbn [fst snd].
  assert (Pipe.read (Pipe.set_queue [a; b] p) r tr1
          = (Returns a, Pipe.set_queue [b] p)) as E3.
  { unfold Pipe.read. simpl. rewrite decide_True by done.
    by rewrite queue_get_item. }
  rewrite E3. cbn [fst snd].
  assert (Pipe.read (Pipe.set_queue [b] p) r tr2
          = (Returns b, Pipe.set_queue [] p)) as E4.
  { unfold Pipe.read. simpl. rewrite decide_True by done.
    by rewrite queue_get_item. }
  rewrite E4. cbn [fst snd].
  repeat (split; [done|]).
  unfold Pipe.read. simpl. rewrite decide_True by done.
  unfold Pipe.queue_get. simpl.
  destruct (Z.ltb_spec tmo 0); [lia|].
  f_equal. rewrite <- Hq. apply pipe_set_queue_id.
Qed.

Lemma pipe_fifo_witness :
  (Pipe.read
     (Pipe.write
        (Pipe.write (Pipe.add_reader (Pipe.add_writer (Pipe.init "data" 2 0) "w") "r")
           "w" (PyInt 1) None).2
        "w" (PyInt 2) (Some 1)).2
     "r" None).1 = Returns (PyInt 1).
Proof.
  refine (proj1 (proj2 (proj2 (proj2
    (pipe_fifo (Pipe.add_reader (Pipe.add_writer (Pipe.init "data" 2 0) "w") "r")
       "w" "r" (PyInt 1) (PyInt 2) None (Some 1) None None 0
       eq_refl _ _ _ I _ I I _))))).
  - simpl. left.
  - simpl. left.
  - right. simpl. lia.
  - simpl. lia.
  - lia.
Defined.



(** X23: pipes through the manager.  On a free name [create_pipe] returns
    true and the two grant calls return true.  The grants have a direction:
    the reader's [write_pipe] returns false and the writer's [read_pipe]
    returns [None] while the item stays in the pipe.  Creating the name
    again returns false and keeps the pipe with its content, so the reader
    then reads what the writer wrote.  On a name that was never created the
    grants and [write_pipe] return false. *)
Theorem manager_pipe_lifecycle (m : IPCManager.t) (name w r : string)
    (data : PyValue) (max_size again now later : Z) (t1 t2 t3 t4 : option Z) :
  IPCManager.pipes m !! name = None →
  w ≠ r → timeout_ok t1 → timeout_ok t4 →
  let c := IPCManager.create_pipe m name max_size now in
  let aw := IPCManager.add_pipe_writer c.2 name w in
  let ar := IPCManager.add_pipe_reader aw.2 name r in
  let w1 := IPCManager.write_pipe ar.2 name w data t1 in
  let w2 := IPCManager.write_pipe w1.2 name r data t2 in
  let r1 := IPCManager.read_pipe w2.2 name w t3 in
  let d := IPCManager.create_pipe r1.2 name again later in
  let r2 := IPCManager.read_pipe d.2 name r t4 in
  IPCManager.add_pipe_writer m name w = (false, m) ∧
  IPCManager.add_pipe_reader m name r = (false, m) ∧
  IPCManager.write_pipe m name w data t1 = (Returns false, m) ∧
  c.1 = true ∧ aw.1 = true ∧ ar.1 = true ∧
  w1.1 = Returns true ∧ w2.1 = Returns false ∧ r1.1 = Returns PyNone ∧
  d.1 = false ∧ r2.1 = Returns data.
Proof.
  intros Hfree Hne Ht1 Ht4. cbv zeta.
  unfold IPCManager.add_pipe_writer at 1, IPCManager.add_pipe_reader at 1,
    IPCManager.write_pipe at 1. rewrite Hfree.
  repeat (split; [done|]).
  set (p0 := Pipe.init name max_size now).
  set (p1 := Pipe.add_writer p0 w).
  set (p2 := Pipe.add_reader p1 r).
  set (p3 := Pipe.set_queue [data] p2).
  assert (∀ m' p, IPCManager.pipes
                    (IPCManager.set_pipes (<[name := p]> (IPCManager.pipes m')) m')
                  !! name = Some p) as Hlk.
  { intros m' p. simpl. apply lookup_insert_eq. }
  set (m1 := IPCManager.set_pipes (<[name := p0]> (IPCManager.pipes m)) m).
  assert (IPCManager.create_pipe m name max_size now = (true, m1)) as Ec.
  { unfold IPCManager.create_pipe. by rewrite Hfree. }
  rewrite Ec. cbn [fst snd].
  set (m2 := IPCManager.set_pipes (<[name := p1]> (IPCManager.pipes m1)) m1).
  assert (IPCManager.add_pipe_writer m1 name w = (true, m2)) as Eaw.
  { unfold IPCManager.add_pipe_writer. unfold m1 at 1. by rewrite Hlk. }
  rewrite Eaw. cbn [fst snd].
  set (m3 := IPCManager.set_pipes (<[name := p2]> (IPCManager.pipes m2)) m2).
  assert (IPCManager.add_pipe_reader m2 name r = (true, m3)) as Ear.
  { unfold IPCManager.add_pipe_reader. unfold m2 at 1. by rewrite Hlk. }
  rewrite Ear. cbn [fst snd].
  assert (Pipe.writers p2 = [w] ∧ Pipe.readers p2 = [r]) as [Hws Hrs] by done.
  set (m4 := IPCManager.set_pipes (<[name := p3]> (IPCManager.pipes m3)) m3).
  assert (IPCManager.write_pipe m3 name w data t1 = (Returns true, m4)) as Ew1.
  { unfold IPCManager.write_pipe. unfold m3 at 1. rewrite Hlk.
    unfold Pipe.write. rewrite Hws, decide_True by left.
    rewrite queue_put_room; [done | done |]. simpl.
    destruct (Z.le_gt_cases max_size 0); [by left | right; lia]. }
  rewrite Ew1. cbn [fst snd].
  set (m5 := IPCManager.set_pipes (<[name := p3]> (IPCManager.pipes m4)) m4).
  assert (IPCManager.write_pipe m4 name r data t2 = (Returns false, m5)) as Ew2.
  { unfold IPCManager.write_pipe. unfold m4 at 1. rewrite Hlk.
    unfold Pipe.write. simpl. rewrite decide_False; [done|].
    intros ->%list_elem_of_singleton. done. }
  rewrite Ew2. cbn [fst snd].
  set (m6 := IPCManager.set_pipes (<[name := p3]> (IPCManager.pipes m5)) m5).
  assert (IPCManager.read_pipe m5 name w t3 = (Returns PyNone, m6)) as Er1.
  { unfold IPCManager.read_pipe. unfold m5 at 1. rewrite Hlk.
    unfold Pipe.read. simpl. rewrite decide_False; [done|].
    intros ->%list_elem_of_singleton. done. }
  rewrite Er1. cbn [fst snd].
  assert (IPCManager.create_pipe m6 name again later = (false, m6)) as Ed.
  { unfold IPCManager.create_pipe. unfold m6 at 1. by rewrite Hlk. }
  rewrite Ed. cbn [fst snd].
  repeat (split; [done|]).
  unfold IPCManager.read_pipe. unfold m6 at 1. rewrite Hlk.
  unfold Pipe.read. simpl. rewrite decide_True by left.
  by rewrite queue_get_item.
Qed.

Lemma manager_pipe_lifecycle_witness :
  (IPCManager.create_pipe IPCManager.init "data" 2 0).1 = true.
Proof.
  refine (proj1 (proj2 (proj2 (proj2
    (manager_pipe_lifecycle IPCManager.init "data" "w" "r" (PyInt 1) 2 5 0 1
       None None None None (lookup_empty _) _ I I))))).
  discriminate.
Defined.

(** * Further properties of the schedulers *)

Lemma runs_before_refl h p : runs_before h p p.
Proof. unfold runs_before. right. lia. Qed.

(** The head of a sorted permutation precedes every element. *)
Lemma sorted_head_least {A : Type} (R : relation A) (l sorted : list A) :
  (∀ x, R x x) → sorted ≡ₚ l → StronglySorted R sorted → l ≠ [] →
  ∃ r, head sorted = Some r ∧ r ∈ l ∧ ∀ q, q ∈ l → R r q.
Proof.
  intros Hrefl Hperm Hs Hne.
  destruct sorted as [|r rest].
  { apply Permutation_nil_l in Hperm. by subst. }
  exists r. split; [done|]. split.
  - rewrite <- Hperm. left.
  - intros q Hq. rewrite <- Hperm in Hq.
    apply StronglySorted_inv in Hs as [_ Hall].
    apply elem_of_cons in Hq as [->|Hq]; [apply Hrefl|].
    rewrite Forall_forall in Hall. by apply Hall.
Qed.

(** X24: the priority scheduler picks, from a non-empty ready list, a
    process of that list that no other ready process precedes: none has a
    higher priority and none of the same priority was created earlier.  The
    base scheduler makes the same choice as long as it has no current
    process. *)
Theorem priority_scheduler_picks_best (h : list Process.t) (ready : list loc)
    (self : Scheduler.t) :
  ready ≠ [] →
  ∃ r,
    PriorityScheduler._select_next_process h ready = Some r ∧
    r ∈ ready ∧
    (∀ q, q ∈ ready →
       Scheduler.priority_of h q <= Scheduler.priority_of h r ∧
       (Scheduler.priority_of h q = Scheduler.priority_of h r →
        Scheduler.created_of h r <= Scheduler.created_of h q)) ∧
    (Scheduler.current_process self = None →
     Scheduler._select_next_process self h ready = Some r).
Proof.
  intros Hne.
  destruct (sorted_head_least (runs_before h) ready
              (list_sort (Scheduler.key_le h) ready)) as (r & Hr & Hin & Hle);
    [apply runs_before_refl | apply list_sort_perm | | done |].
  { apply (list_sort_sorted _ _ (key_le_sound h) (key_le_total h) _). }
  exists r. unfold PriorityScheduler._select_next_process,
    Scheduler._select_next_process.
  destruct ready as [|r0 ready']; [done|].
  split; [done|]. split; [done|]. split.
  - intros q Hq. specialize (Hle q Hq). unfold runs_before in Hle. lia.
  - intros ->. done.
Qed.

Lemma priority_scheduler_picks_best_witness :
  PriorityScheduler._select_next_process (heap after_current_died)
    (Scheduler._get_ready_processes after_current_died) = Some 1%nat.
Proof.
  assert (Scheduler._get_ready_processes after_current_died ≠ []) as H.
  { vm_compute. discriminate. }
  destruct (priority_scheduler_picks_best (heap after_current_died) _
              scheduler_on_x H) as (r & Hr & _).
  rewrite Hr. vm_compute in Hr. exact (eq_sym Hr).
Defined.

(** X25: the FIFO scheduler picks, from a non-empty ready list, a process
    of that list with the earliest creation time, whatever the
    priorities. *)
Theorem fifo_scheduler_picks_oldest (h : list Process.t) (ready : list loc) :
  ready ≠ [] →
  ∃ r,
    FIFOScheduler._select_next_process h ready = Some r ∧
    r ∈ ready ∧
    ∀ q, q ∈ ready → Scheduler.created_of h r <= Scheduler.created_of h q.
Proof.
  intros Hne.
  destruct (sorted_head_least
              (fun p q => Scheduler.created_of h p <= Scheduler.created_of h q)
              ready (list_sort (FIFOScheduler.created_le h) ready))
    as (r & Hr & Hin & Hle); [lia | apply list_sort_perm | | done |].
  { apply list_sort_sorted.
    - intros x y Hxy. by apply Z.leb_le in Hxy.
    - intros x y Hxy. apply Z.leb_gt in Hxy. lia.
    - intros x y z. lia. }
  exists r. unfold FIFOScheduler._select_next_process.
  by destruct ready.
Qed.

Lemma fifo_scheduler_picks_oldest_witness :
  FIFOScheduler._select_next_process (heap after_current_died)
    (Scheduler._get_ready_processes after_current_died) = Some 1%nat.
Proof.
  assert (Scheduler._get_ready_processes after_current_died ≠ []) as H.
  { vm_compute. discriminate. }
  destruct (fifo_scheduler_picks_oldest (heap after_current_died) _ H)
    as (r & Hr & _).
  rewrite Hr. vm_compute in Hr. exact (eq_sym Hr).
Defined.

Lemma list_index_lookup x (l : list loc) i :
  NoDup l → l !! i = Some x → list_index x l = Some i.
Proof.
  intros Hnd. revert i. induction Hnd as [|y l Hy Hnd IH]; intros [|i]; simpl;
    try done.
  - intros [= ->]. by rewrite decide_True.
  - intros Hl. rewrite decide_False.
    + by rewrite (IH i Hl).
    + intros ->. apply Hy. by eapply list_elem_of_lookup_2.
Qed.

Lemma succ_mod_neq i n : (i < n)%nat → (1 < n)%nat → ((i + 1) `mod` n)%nat ≠ i.
Proof.
  intros Hi Hn. destruct (decide (i + 1 = n)%nat) as [E|E].
  - rewrite E, Nat.Div0.mod_same. lia.
  - rewrite Nat.mod_small by lia. lia.
Qed.

(** The selection when the current process is ready and has company in its
    band. *)
Lemma select_in_band (self : Scheduler.t) (h : list Process.t)
    (ready : list loc) (cur : loc) :
  Scheduler.current_process self = Some cur → cur ∈ ready →
  let band :=
    filter (fun p => Scheduler.priority_of h p = Scheduler.priority_of h cur)
           (list_sort (Scheduler.key_le h) ready) in
  (1 < length band)%nat →
  ∃ i next,
    band !! i = Some cur ∧ list_index cur band = Some i ∧
    band !! ((i + 1) `mod` length band)%nat = Some next ∧
    Scheduler._select_next_process self h ready = Some next.
Proof.
  intros Hcur Hin band Hlen.
  assert (list_sort (Scheduler.key_le h) ready ≡ₚ ready) as Hperm
    by apply list_sort_perm.
  unfold Scheduler._select_next_process. rewrite Hcur.
  destruct ready as [|r0 ready']; [by apply elem_of_nil in Hin|].
  rewrite decide_True by (by rewrite Hperm). fold band.
  destruct (Nat.ltb_spec 1 (length band)) as [_|?]; [|lia].
  assert (cur ∈ band) as Hb.
  { apply list_elem_of_filter. split; [done | by rewrite Hperm]. }
  destruct (list_index_elem _ _ Hb) as (i & Hi & Hl).
  assert ((i + 1) `mod` length band < length band)%nat as Hlt.
  { apply Nat.mod_upper_bound. lia. }
  destruct (lookup_lt_is_Some_2 _ _ Hlt) as [next Hnext].
  exists i, next. by rewrite Hi.
Qed.

(** X26: while the current process is ready and at least one other ready
    process has its priority, the base scheduler stays in that priority
    band: it selects another ready process of the same priority, never the
    current one again, and does so even when a process of higher priority
    is ready. *)
Theorem round_robin_stays_in_band (self : Scheduler.t) (h : list Process.t)
    (ready : list loc) (cur : loc) :
  Scheduler.current_process self = Some cur →
  cur ∈ ready → NoDup ready →
  (1 < length (filter (fun p => Scheduler.priority_of h p
                                = Scheduler.priority_of h cur) ready))%nat →
  ∃ next,
    Scheduler._select_next_process self h ready = Some next ∧
    next ∈ ready ∧ next ≠ cur ∧
    Scheduler.priority_of h next = Scheduler.priority_of h cur.
Proof.
  intros Hcur Hin Hnd Hlen.
  assert (list_sort (Scheduler.key_le h) ready ≡ₚ ready) as Hperm
    by apply list_sort_perm.
  set (band := filter (fun p => Scheduler.priority_of h p
                                = Scheduler.priority_of h cur)
                 (list_sort (Scheduler.key_le h) ready)).
  assert (band ≡ₚ filter (fun p => Scheduler.priority_of h p
                                   = Scheduler.priority_of h cur) ready) as Hb.
  { unfold band. by rewrite Hperm. }
  assert (1 < length band)%nat as Hlen' by (by rewrite Hb).
  assert (NoDup band) as Hndb.
  { rewrite Hb. by apply NoDup_filter. }
  destruct (select_in_band self h ready cur Hcur Hin Hlen')
    as (i & next & Hi & _ & Hnext & Hsel).
  fold band in Hi, Hnext.
  exists next. split; [done|].
  assert (next ∈ band) as Hnb by (by eapply list_elem_of_lookup_2).
  rewrite Hb in Hnb. apply list_elem_of_filter in Hnb as [Hp Hr].
  split; [done|]. split; [|done].
  intros ->.
  pose proof (NoDup_lookup _ _ _ _ Hndb Hi Hnext) as Heq.
  apply lookup_lt_Some in Hi.
  by apply (succ_mod_neq i (length band)).
Qed.

Lemma round_robin_stays_in_band_witness :
  ∃ next,
    Scheduler._select_next_process
      (Scheduler.set_current_process (Some 2%nat) scheduler_on_x)
      (heap after_current_died)
      (Scheduler._get_ready_processes after_current_died) = Some next ∧
    Scheduler.priority_of (heap after_current_died) next = 1.
Proof.
  destruct (round_robin_stays_in_band
              (Scheduler.set_current_process (Some 2%nat) scheduler_on_x)
              (heap after_current_died)
              (Scheduler._get_ready_processes after_current_died) 2%nat)
    as (next & Hsel & _ & _ & Hp).
  - reflexivity.
  - vm_compute. right. left.
  - vm_compute. repeat constructor; intros H; repeat
      (apply elem_of_cons in H as [H|H]; [discriminate|]);
      by apply elem_of_nil in H.
  - vm_compute. lia.
  - exists next. split; [exact Hsel|]. rewrite Hp. vm_compute. reflexivity.
Defined.

Lemma slice_states_cancel (h : list Process.t) (process : loc) :
  Scheduler.state_of h process = Some READY →
  alter (Process.set_state READY) process
        (alter (Process.set_state RUNNING) process h) = h.
Proof.
  unfold Scheduler.state_of. intros Hst. apply list_eq. intros l.
  destruct (decide (l = process)) as [->|Hne].
  - rewrite !list_lookup_alter_eq.
    destruct (h !! process) as [p|]; [|done]. simpl in *.
    injection Hst as Hst. destruct p. simpl in *. by subst.
  - by rewrite !list_lookup_alter_ne.
Qed.

Lemma execute_process_slice_spec_quiet (self : Scheduler.t)
    (h : list Process.t) (process : loc) :
  Scheduler.running self = true →
  Scheduler.state_of h process = Some READY →
  Scheduler._execute_process_slice self h process id
  = (Scheduler.set_current_process (Some process) self, h).
Proof.
  intros Hrun Hst. unfold Scheduler._execute_process_slice. rewrite Hrun.
  simpl.
  assert (Scheduler.state_of (alter (Process.set_state RUNNING) process h)
            process = Some RUNNING) as Hr.
  { unfold Scheduler.state_of in *. rewrite list_lookup_alter_eq.
    by destruct (h !! process). }
  rewrite decide_True by done. by rewrite slice_states_cancel.
Qed.

(** X27: what a time slice does to the process it runs.  A scheduler that
    is not running does nothing.  A running one records the process as
    current and marks it [RUNNING] for the quantum; afterwards the process
    is [READY] again if it is still [RUNNING], and keeps whatever state
    another thread gave it in the meantime otherwise, so a process
    terminated during its slice stays [TERMINATED]; other process objects
    are not touched by the slice.  If nothing interferes, a [READY] process
    and all others are afterwards exactly as before. *)
Theorem execute_process_slice_spec (self : Scheduler.t) (h : list Process.t)
    (process : loc) (during : list Process.t → list Process.t) :
  let r := Scheduler._execute_process_slice self h process during in
  let h1 := during (alter (Process.set_state RUNNING) process h) in
  if Scheduler.running self then
    r.1 = Scheduler.set_current_process (Some process) self ∧
    (∀ st, Scheduler.state_of h1 process = Some st →
           Scheduler.state_of r.2 process
           = Some (if decide (st = RUNNING) then READY else st)) ∧
    (∀ l, l ≠ process → r.2 !! l = h1 !! l) ∧
    (Scheduler.state_of h process = Some READY →
     Scheduler._execute_process_slice self h process id
     = (Scheduler.set_current_process (Some process) self, h))
  else r = (self, h).
Proof.
  cbv zeta. unfold Scheduler._execute_process_slice.
  destruct (Scheduler.running self); simpl; [|done].
  set (h1 := during (alter (Process.set_state RUNNING) process h)).
  repeat split.
  - by destruct (decide (Scheduler.state_of h1 process = Some RUNNING)).
  - intros st Hst.
    destruct (decide (st = RUNNING)) as [->|Hne].
    + rewrite decide_True by done. simpl. unfold Scheduler.state_of in *.
      rewrite list_lookup_alter_eq.
      by destruct (h1 !! process).
    + rewrite decide_False by congruence. done.
  - intros l Hl.
    destruct (decide (Scheduler.state_of h1 process = Some RUNNING)); simpl;
      [by rewrite list_lookup_alter_ne | done].
  - intros Hst.
    assert (Scheduler.state_of (alter (Process.set_state RUNNING) process h)
              process = Some RUNNING) as Hrun.
    { unfold Scheduler.state_of in *. rewrite list_lookup_alter_eq.
      by destruct (h !! process). }
    rewrite decide_True by done. by rewrite slice_states_cancel.
Qed.

Lemma execute_process_slice_spec_witness :
  Scheduler._execute_process_slice scheduler_on_b (heap three_peers) 2%nat id
  = (Scheduler.set_current_process (Some 2%nat) scheduler_on_b,
     heap three_peers).
Proof.
  apply (execute_process_slice_spec scheduler_on_b (heap three_peers) 2%nat id).
  vm_compute. reflexivity.
Defined.

Lemma filter_all {A : Type} (P : A → Prop) `{!∀ x, Decision (P x)} (l : list A) :
  Forall P l → filter P l = l.
Proof.
  induction 1 as [|x l Hx Hl IH]; [done|].
  by rewrite filter_cons_True, IH.
Qed.

Lemma set_current_process_twice a b self :
  Scheduler.set_current_process a (Scheduler.set_current_process b self)
  = Scheduler.set_current_process a self.
Proof. done. Qed.

(** One quiet turn in a band of equals moves the scheduler one place on. *)
Lemma quiet_turn_advances (self : Scheduler.t) (s : State) (i : nat) :
  Scheduler.running self = true →
  let ready := Scheduler._get_ready_processes s in
  let sorted := list_sort (Scheduler.key_le (heap s)) ready in
  NoDup ready → (1 < length sorted)%nat →
  (∀ p q, p ∈ ready → q ∈ ready →
          Scheduler.priority_of (heap s) p = Scheduler.priority_of (heap s) q) →
  (i < length sorted)%nat →
  Scheduler.current_process self = sorted !! i →
  Scheduler._scheduling_turn self s id
  = (Scheduler.set_current_process
       (sorted !! ((i + 1) `mod` length sorted)%nat) self, s).
Proof.
  intros Hrun ready sorted Hnd Hlen Hsame Hi Hcur.
  assert (sorted ≡ₚ ready) as Hperm by apply list_sort_perm.
  destruct (lookup_lt_is_Some_2 _ _ Hi) as [cur Hc].
  rewrite Hc in Hcur.
  assert (cur ∈ ready) as Hin.
  { rewrite <- Hperm. by eapply list_elem_of_lookup_2. }
  assert (filter (fun p => Scheduler.priority_of (heap s) p
                           = Scheduler.priority_of (heap s) cur) sorted
          = sorted) as Hband.
  { apply filter_all. apply Forall_forall. intros p Hp.
    apply Hsame; [by rewrite <- Hperm | done]. }
  destruct (select_in_band self (heap s) ready cur Hcur Hin)
    as (j & next & Hj & Hidx & Hnext & Hsel).
  { fold sorted. by rewrite Hband. }
  fold ready sorted in Hj, Hidx, Hnext. rewrite Hband in Hj, Hidx, Hnext.
  assert (NoDup sorted) as Hnds by (by rewrite Hperm).
  assert (j = i) as -> by (by eapply NoDup_lookup).
  assert (next ∈ ready) as Hnr.
  { rewrite <- Hperm. by eapply list_elem_of_lookup_2. }
  assert (Scheduler.state_of (heap s) next = Some READY) as Hst.
  { unfold ready, Scheduler._get_ready_processes in Hnr.
    by apply list_elem_of_filter in Hnr as [? _]. }
  unfold Scheduler._scheduling_turn. fold ready.
  destruct ready as [|r0 ready'] eqn:Er; [by apply elem_of_nil in Hin|].
  rewrite Hsel.
  pose proof (execute_process_slice_spec_quiet self (heap s) next Hrun Hst) as Hq.
  rewrite Hq. rewrite Hnext. by destruct s.
Qed.

(** X28: no starvation within a priority band.  With the scheduler
    running, more than one process ready, all ready processes of one
    priority, and nothing else touching the processes, every turn of the
    scheduling loop hands the processor to the next process of the sorted
    ready list, cyclically, and leaves the kernel as it was: starting from
    the process at place [i], after [k] turns the current process is the
    one at place [(i + k) mod n], so each of the [n] processes runs once in
    any [n] consecutive turns. *)
Theorem round_robin_cycles (self : Scheduler.t) (s : State) (i k : nat) :
  Scheduler.running self = true →
  let ready := Scheduler._get_ready_processes s in
  let sorted := list_sort (Scheduler.key_le (heap s)) ready in
  NoDup ready → (1 < length sorted)%nat →
  (∀ p q, p ∈ ready → q ∈ ready →
          Scheduler.priority_of (heap s) p = Scheduler.priority_of (heap s) q) →
  (i < length sorted)%nat →
  Scheduler.current_process self = sorted !! i →
  quiet_turns k self s
  = (Scheduler.set_current_process
       (sorted !! ((i + k) `mod` length sorted)%nat) self, s).
Proof.
  intros Hrun ready sorted Hnd Hlen Hsame.
  revert self i Hrun. induction k as [|k IH]; intros self i Hrun Hi Hcur; simpl.
  - rewrite Nat.add_0_r, Nat.mod_small by done. rewrite <- Hcur.
    by destruct self.
  - rewrite (quiet_turn_advances self s i Hrun Hnd Hlen Hsame Hi Hcur).
    fold ready sorted.
    rewrite (IH _ ((i + 1) `mod` length sorted)%nat); try done.
    + rewrite set_current_process_twice. do 3 f_equal.
      rewrite Nat.Div0.add_mod_idemp_l. f_equal. lia.
    + apply Nat.mod_upper_bound. lia.
Qed.

Lemma round_robin_cycles_witness :
  quiet_turns 3 scheduler_on_b three_peers = (scheduler_on_b, three_peers) ∧
  Scheduler.current_process (quiet_turns 1 scheduler_on_b three_peers).1
  = Some 2%nat.
Proof.
  assert (∀ k, quiet_turns k scheduler_on_b three_peers
               = (Scheduler.set_current_process
                    (list_sort (Scheduler.key_le (heap three_peers))
                       (Scheduler._get_ready_processes three_peers)
                     !! ((1 + k) `mod` 3)%nat) scheduler_on_b, three_peers))
    as H.
  { intros k.
    apply (round_robin_cycles scheduler_on_b three_peers 1 k eq_refl).
    - vm_compute. repeat constructor; intros H; repeat
        (apply elem_of_cons in H as [H|H]; [discriminate|]);
        by apply elem_of_nil in H.
    - vm_compute. lia.
    - intros p q Hp Hq. vm_compute in Hp, Hq.
      repeat (apply elem_of_cons in Hp as [->|Hp]);
        try (by apply elem_of_nil in Hp);
        repeat (apply elem_of_cons in Hq as [->|Hq]);
        try (by apply elem_of_nil in Hq); reflexivity.
    - vm_compute. lia.
    - vm_compute. reflexivity. }
  split.
  - rewrite (H 3%nat). vm_compute. reflexivity.
  - rewrite (H 1%nat). vm_compute. reflexivity.
Defined.

(** X29: what the scheduler sees as ready.  Every process it is given is
    in the process table and in state [READY].  A process just created is
    among them; once [terminate_process] has removed it, or its body has
    finished, it is not. *)
Theorem ready_processes_follow_lifecycle (s : State) (pid name : string)
    (has_target : bool) (priority now : Z) :
  memory_used (kernel s) + 1024 <= memory_pool (kernel s) →
  let s1 := (create_process s pid name has_target priority now).2 in
  let new := length (heap s) in
  (∀ p, p ∈ Scheduler._get_ready_processes s →
        p ∈ list_processes s ∧ Scheduler.state_of (heap s) p = Some READY) ∧
  new ∈ Scheduler._get_ready_processes s1 ∧
  (new ∉ Scheduler._get_ready_processes (terminate_process s1 pid).2) ∧
  (new ∉ Scheduler._get_ready_processes (_run_process_finally s1 pid)).
Proof.
  intros Hfree. cbv zeta.
  rewrite (create_process_ok s pid name has_target priority now Hfree).
  unfold Scheduler._get_ready_processes. simpl.
  split; [|split; [|split]].
  - intros p [Hst Hin]%list_elem_of_filter. done.
  - apply list_elem_of_filter. split.
    + unfold Scheduler.state_of. simpl.
      by rewrite lookup_app_r, Nat.sub_diag by lia.
    + unfold list_processes. simpl.
      eapply odict_get_values. apply odict_get_set_eq.
  - rewrite list_elem_of_filter. intros [Hst _].
    unfold terminate_process in Hst. simpl in Hst.
    rewrite odict_get_set_eq in Hst. unfold deallocate_memory in Hst.
    simpl in Hst. rewrite alter_last in Hst.
    rewrite lookup_app_r, Nat.sub_diag in Hst by lia. simpl in Hst.
    unfold Scheduler.state_of in Hst. simpl in Hst.
    rewrite alter_last in Hst.
    by rewrite lookup_app_r, Nat.sub_diag in Hst by lia.
  - rewrite list_elem_of_filter. intros [Hst _].
    unfold _run_process_finally in Hst. simpl in Hst.
    rewrite odict_get_set_eq in Hst. unfold Scheduler.state_of in Hst.
    simpl in Hst. rewrite alter_last in Hst.
    by rewrite lookup_app_r, Nat.sub_diag in Hst by lia.
Qed.

Lemma ready_processes_follow_lifecycle_witness :
  (0%nat) ∈ Scheduler._get_ready_processes
              (create_process init_state "a1" "init" false 1 10).2.
Proof.
  assert (memory_used (kernel init_state) + 1024
          <= memory_pool (kernel init_state)) as H by (vm_compute; discriminate).
  exact (proj1 (proj2
    (ready_processes_follow_lifecycle init_state "a1" "init" false 1 10 H))).
Defined.
